(** * JoinEm: greedy stitching of line strings by nearest end points

    A shallow embedding of [join-em.py] ([find_closest] and [join_em]) and
    the properties of the assembly algorithm stated in the specification.

    Conventions of the embedding.
    - A shapely [LineString] is a mutable object: the store [heap] maps an
      object identity (a [nat], allocated in reading order) to the object,
      and the Python lists [src_segments] and [segments_in_order] hold
      identities.  The assignment [closest_segment.coords = ...[::-1]]
      updates the store.
    - Coordinates and distances are rationals: every finite float is one
      (taken in lowest terms, so that equal floats are equal terms), and
      the program only compares distances with [<].
    - The two metrics ([Point.distance] of shapely and [haversine] of the
      haversine package) and shapely's [==] on geometries are library code;
      they are the parameters of Section [JoinEm].
    - A Python exception is the [Raise] outcome of the [res] monad.
    - Logging calls have no effect on the result and are left out. *)

From Stdlib Require Import QArith Qabs Qminmax Lia Lqa.
From stdpp Require Import base option list strings.

Set Default Proof Using "Type".

(** ** Exceptions *)

Inductive exn := IndexError | ValueError.

Inductive res (A : Type) : Type :=
  | Ok (a : A)
  | Raise (e : exn).
Arguments Ok {A} a.
Arguments Raise {A} e.

#[global] Instance res_ret : MRet res := fun A a => Ok a.
#[global] Instance res_bind : MBind res := fun A B f m =>
  match m with
  | Ok a => f a
  | Raise e => Raise e
  end.

(** ** Data model *)

Record Point := mkPoint { x : Q; y : Q }.

(** A geometry object; [coords] is its coordinate sequence. *)
Record LineString := mkLineString { coords : list Point }.

#[global] Instance LineString_inhabited : Inhabited LineString :=
  populate (mkLineString []).

#[global] Instance Q_eq_dec : EqDecision Q.
Proof. solve_decision. Defined.
#[global] Instance Point_eq_dec : EqDecision Point.
Proof. solve_decision. Defined.
#[global] Instance LineString_eq_dec : EqDecision LineString.
Proof. solve_decision. Defined.

(** The strings ["start"] and ["end"] of [closest_location]. *)
Inductive Location := LStart | LEnd.

#[global] Instance Location_eq_dec : EqDecision Location.
Proof. solve_decision. Defined.

(** [l[0]] and [l[-1]] of Python: [IndexError] on an empty sequence. *)
Definition index_first {A} (l : list A) : res A :=
  match l with
  | [] => Raise IndexError
  | a :: _ => Ok a
  end.

Definition index_last {A} (l : list A) : res A :=
  match last l with
  | None => Raise IndexError
  | Some a => Ok a
  end.

(** [a < b] on distances. *)
Definition Qltb (a b : Q) : bool := negb (Qle_bool b a).

(** The object store.  A reference outside the store does not arise
    (identities are allocated by reading and never freed); the total
    lookup [h !!! o] is used for [o]'s object. *)
Abbreviation Heap := (list LineString).

(** ** The command line

    [_main] from [(options, args) = parser.parse_args()] on.  The parsed
    options are a record (a [store_true] flag is [true] when it was
    given); the file system is seen through [os.path.exists], a function
    on paths, and changed by [shutil.rmtree]; what [_main] does is the
    sequence of its effects, the call of [join_em] being one of them.
    [sys.exit] ends the run. *)





(** ** Concrete library parameters, for running the program

    [line_distance] is the Euclidean distance between two points that
    share a coordinate (lemma [line_distance_euclidean] below);
    [coords_eq] is coordinate-wise equality of two geometries. *)

Definition line_distance (p q : Point) : Q :=
  (Qabs (x p - x q) + Qabs (y p - y q))%Q.

Definition no_haversine (a b : Q * Q) : Q := 0%Q.

Definition coords_eq (a b : LineString) : bool := bool_decide (a = b).

Definition pt (a b : Z) : Point := mkPoint (inject_Z a) (inject_Z b).

(** The default tolerance of [join_em], [0.0001]. *)
Definition default_tolerance : Q := 1 # 10000.

(** Three pieces of the line from (-1,0) to (2,0), as features of a source
    in the order right piece, left piece, middle piece. *)
Definition three_pieces : list (option (list Point)) :=
  [Some [pt 1 0; pt 2 0]; Some [pt (-1) 0; pt 0 0]; Some [pt 0 0; pt 1 0]].

(** The left piece twice, then the middle piece. *)
Definition doubled_piece : list (option (list Point)) :=
  [Some [pt (-1) 0; pt 0 0]; Some [pt (-1) 0; pt 0 0];
   Some [pt 0 0; pt 1 0]].

(** A piece of three points and a piece of two that starts where the first
    ends. *)
Definition three_and_two : list (option (list Point)) :=
  [Some [pt 2 0; pt 3 0]; Some [pt 0 0; pt 1 0; pt 2 0]].

(** Two pieces whose nearest end points are at distance 1. *)
Definition gap_of_one : list (option (list Point)) :=
  [Some [pt 2 0; pt 3 0]; Some [pt 0 0; pt 1 0]].

Section JoinEm.

(** [distance p q] is shapely's [p.distance(q)]. *)
Variable distance : Point -> Point -> Q.
(** [haversine a b] is the haversine package's great-circle distance in
    kilometres between two (latitude, longitude) pairs. *)
Variable haversine : Q * Q -> Q * Q -> Q.
(** [geom_eq a b] is shapely's [a == b] on two distinct objects. *)
Variable geom_eq : LineString -> LineString -> bool.

(** *** find_closest *)

(** The body of [for seg in segments], with the three loop variables
    threaded through. *)
Fixpoint find_closest_loop (h : Heap) (point : Point)
    (haversine_distance : bool) (segments : list nat)
    (closest_segment : option nat) (closest_distance : Q)
    (closest_location : option Location)
    : res (option nat * option Location * Q) :=
  match segments with
  | [] => Ok (closest_segment, closest_location, closest_distance)
  | seg :: segments' =>
      start ← index_first (coords (h !!! seg));
      end_ ← index_last (coords (h !!! seg));
      let '(start_distance, end_distance) :=
        if haversine_distance
        then ((haversine (y start, x start) (y point, x point) * 1000)%Q,
              (haversine (y end_, x end_) (y point, x point) * 1000)%Q)
        else (distance point start, distance point end_) in
      let '(closest_distance, closest_segment, closest_location) :=
        if bool_decide (closest_segment = None)
           || Qltb start_distance closest_distance
        then (start_distance, Some seg, Some LStart)
        else (closest_distance, closest_segment, closest_location) in
      let '(closest_distance, closest_segment, closest_location) :=
        if Qltb end_distance closest_distance
        then (end_distance, Some seg, Some LEnd)
        else (closest_distance, closest_segment, closest_location) in
      find_closest_loop h point haversine_distance segments'
        closest_segment closest_distance closest_location
  end.

Definition find_closest (h : Heap) (point : Point) (segments : list nat)
    (haversine_distance : bool) : res (option nat * option Location * Q) :=
  find_closest_loop h point haversine_distance segments None 0%Q None.

(** *** join_em *)

(** [l.remove(target)]: the first element that is [target] itself or
    compares equal to it is deleted; [ValueError] if there is none. *)
Fixpoint list_remove (h : Heap) (target : nat) (l : list nat)
    : res (list nat) :=
  match l with
  | [] => Raise ValueError
  | o :: l' =>
      if bool_decide (o = target) || geom_eq (h !!! o) (h !!! target)
      then Ok l'
      else l'' ← list_remove h target l'; Ok (o :: l'')
  end.

(** [l.pop()]: removes and returns the last element. *)
Definition list_pop {A} (l : list A) : res (A * list A) :=
  match last l with
  | None => Raise IndexError
  | Some a => Ok (a, removelast l)
  end.

(** [o.coords = list(o.coords)[::-1]] *)
Definition flip (h : Heap) (o : nat) : Heap :=
  <[o := mkLineString (rev (coords (h !!! o)))]> h.

(** The variables of [join_em] that live across loop iterations. *)
Record State := mkState {
  heap : Heap;
  src_segments : list nat;
  segments_in_order : list nat;
  seg : nat
}.

(** How an iteration of the [while] loop ends: at the end of its body, or
    by [break]. *)
Inductive ctl :=
  | Continue (s : State)
  | Break (s : State).

(** [closest_segment and distance < tolerance].  A geometry returned by
    [find_closest] has had its coordinates indexed, so it is not empty
    and is truthy; [None] is falsy. *)
Definition within (closest_segment : option nat) (distance_ tolerance : Q)
    : option nat :=
  match closest_segment with
  | Some c => if Qltb distance_ tolerance then Some c else None
  | None => None
  end.

(** One pass through the body of [while len(src_segments) > 0]. *)
Definition loop_body (tolerance : Q) (haversine_distance : bool)
    (s : State) : res ctl :=
  start ← index_first (coords (heap s !!! seg s));
  end_ ← index_last (coords (heap s !!! seg s));
  '(closest_segment, start_or_end, distance_) ←
    find_closest (heap s) end_ (src_segments s) haversine_distance;
  match within closest_segment distance_ tolerance with
  | Some closest_segment =>
      src_segments' ← list_remove (heap s) closest_segment (src_segments s);
      let heap' :=
        if bool_decide (start_or_end = Some LEnd)
        then flip (heap s) closest_segment else heap s in
      Ok (Continue (mkState heap' src_segments'
                      (segments_in_order s ++ [closest_segment])
                      closest_segment))
  | None =>
      '(closest_segment, start_or_end, distance_) ←
        find_closest (heap s) start (src_segments s) haversine_distance;
      match within closest_segment distance_ tolerance with
      | Some closest_segment =>
          src_segments' ←
            list_remove (heap s) closest_segment (src_segments s);
          let heap' :=
            if bool_decide (start_or_end = Some LStart)
            then flip (heap s) closest_segment else heap s in
          Ok (Continue (mkState heap' src_segments'
                          (closest_segment :: segments_in_order s)
                          closest_segment))
      | None => Ok (Break s)
      end
  end.

(** The [while] loop.  The result carries the number of iterations
    executed; [None] means that [fuel] iterations were not enough. *)
Fixpoint while_loop (tolerance : Q) (haversine_distance : bool)
    (fuel : nat) (s : State) : option (res (State * nat)) :=
  match src_segments s with
  | [] => Some (Ok (s, 0))
  | _ :: _ =>
      match fuel with
      | 0 => None
      | S fuel' =>
          match loop_body tolerance haversine_distance s with
          | Raise e => Some (Raise e)
          | Ok (Break s') => Some (Ok (s', 1))
          | Ok (Continue s') =>
              match while_loop tolerance haversine_distance fuel' s' with
              | Some (Ok (s'', k)) => Some (Ok (s'', S k))
              | r => r
              end
          end
      end
  end.

(** Reading the source: a feature without geometry is skipped, every
    other one becomes a new object appended to [src_segments]. *)
Definition read_source (source : list (option (list Point)))
    : Heap * list nat :=
  let h := mkLineString <$> omap id source in
  (h, seq 0 (length h)).

(** [seg = src_segments.pop(); segments_in_order = [seg]] *)
Definition seed (h : Heap) (src_segments : list nat) : res State :=
  '(seg, src_segments') ← list_pop src_segments;
  Ok (mkState h src_segments' [seg] seg).

(** The [combine] branch: [all_coords.extend(seg.coords)] for every
    [seg] of the chain. *)
Definition all_coords (h : Heap) (segments_in_order : list nat)
    : list Point :=
  fold_left (fun all_coords seg => all_coords ++ coords (h !!! seg))
    segments_in_order [].

(** The geometries written to the destination, in order. *)
Definition write_output (combine : bool) (s : State) : list (list Point) :=
  if combine
  then [all_coords (heap s) (segments_in_order s)]
  else (fun seg => coords (heap s !!! seg)) <$> segments_in_order s.

(** [join_em]: the records written, together with the final state (the
    chain is [segments_in_order], the leftovers are [src_segments]). *)
Definition join_em (source : list (option (list Point))) (tolerance : Q)
    (haversine_distance combine : bool)
    : option (res (list (list Point) * State)) :=
  let '(h, pool) := read_source source in
  match seed h pool with
  | Raise e => Some (Raise e)
  | Ok s0 =>
      match while_loop tolerance haversine_distance
              (length (src_segments s0)) s0 with
      | None => None
      | Some (Raise e) => Some (Raise e)
      | Some (Ok (s, _)) => Some (Ok (write_output combine s, s))
      end
  end.


(** *** Specification-level notions *)

(** The distance [find_closest] computes from [point] to an end point
    [p] of a candidate, in the mode chosen by [haversine_distance]. *)
Definition measure (haversine_distance : bool) (point p : Point) : Q :=
  if haversine_distance
  then (haversine (y p, x p) (y point, x point) * 1000)%Q
  else distance point p.

(** Start point and end point of a geometry. *)
Definition endpoint (ls : LineString) (loc : Location) : option Point :=
  match loc with
  | LStart => head (coords ls)
  | LEnd => last (coords ls)
  end.

(** All (segment, end point) pairs with their distance to [point], in
    pool order, start before end for each segment. *)
Definition candidates (h : Heap) (point : Point)
    (haversine_distance : bool) (pool : list nat)
    : list (nat * Location * Q) :=
  flat_map (fun o =>
    omap (fun loc =>
            (fun p => (o, loc, measure haversine_distance point p))
              <$> endpoint (h !!! o) loc)
         [LStart; LEnd]) pool.

(** The streaming running minimum of the specification: a candidate
    replaces the running minimum when its distance is strictly
    smaller. *)
Definition better (best cand : nat * Location * Q) : nat * Location * Q :=
  if Qltb cand.2 best.2 then cand else best.

Definition running_min (cands : list (nat * Location * Q))
    : option (nat * Location * Q) :=
  match cands with
  | [] => None
  | first :: rest => Some (fold_left better rest first)
  end.

(** The states the loop of [join_em] goes through, from [s0]. *)
Inductive reachable (tolerance : Q) (haversine_distance : bool)
    (s0 : State) : State -> Prop :=
  | reachable_init : reachable tolerance haversine_distance s0 s0
  | reachable_step s s' :
      reachable tolerance haversine_distance s0 s ->
      src_segments s <> [] ->
      loop_body tolerance haversine_distance s = Ok (Continue s') ->
      reachable tolerance haversine_distance s0 s'.

(** *** Notions used in the proofs *)

Arguments within : simpl never.

(** What the loop does with one segment whose coordinates are present. *)
Definition visit (haversine_distance : bool) (point : Point) (o : nat)
    (s e : Point) (acc : option nat * option Location * Q)
    : option nat * option Location * Q :=
  let '(cs, cl, cd) := acc in
  let sd := measure haversine_distance point s in
  let ed := measure haversine_distance point e in
  let '(cs1, cl1, cd1) :=
    if bool_decide (cs = None) || Qltb sd cd
    then (Some o, Some LStart, sd) else (cs, cl, cd) in
  if Qltb ed cd1 then (Some o, Some LEnd, ed) else (cs1, cl1, cd1).

(** [c] at end point [loc] is the first candidate of [p1 ++ c :: p2]
    (in pool order) at distance [d] from [point]; every segment before
    it is strictly farther. *)
Definition found_at (h : Heap) (point : Point) (flag : bool)
    (p1 : list nat) (c : nat) (l : option Location) (d : Q) : Prop :=
  exists loc p,
    l = Some loc /\ endpoint (h !!! c) loc = Some p /\
    d = measure flag point p /\ (c ∉ p1) /\
    forall o loc' p', o ∈ p1 -> endpoint (h !!! o) loc' = Some p' ->
                      (d < measure flag point p')%Q.

(** The state after a match at the tail ([at_tail = true]) or at the
    head of the chain. *)
Definition joined (s : State) (at_tail : bool) (c : nat)
    (loc : option Location) (pool' : list nat) : State :=
  if at_tail
  then mkState (if bool_decide (loc = Some LEnd)
                then flip (heap s) c else heap s)
               pool' (segments_in_order s ++ [c]) c
  else mkState (if bool_decide (loc = Some LStart)
                then flip (heap s) c else heap s)
               pool' (c :: segments_in_order s) c.

(** The objects of the pool and of the chain are distinct objects of the
    store [h0] that was read, and an object still in the pool is as it
    was read. *)
Record wf (h0 : Heap) (s : State) : Prop := {
  wf_length : length (heap s) = length h0;
  wf_nodup : NoDup (src_segments s ++ segments_in_order s);
  wf_bound : forall o, o ∈ src_segments s ++ segments_in_order s ->
                       o < length h0;
  wf_pool : forall o, o ∈ src_segments s -> heap s !!! o = h0 !!! o
}.

(** The two points the specification queries with: the end of the last
    polyline of the chain and the start of its first polyline. *)
Definition chain_tail_point (s : State) : option Point :=
  o ← last (segments_in_order s); last (coords (heap s !!! o)).

Definition chain_head_point (s : State) : option Point :=
  o ← head (segments_in_order s); head (coords (heap s !!! o)).

(** The two points [loop_body] queries with, [end] and [start]: both are
    end points of [seg]. *)
Definition tail_query_point (s : State) : res Point :=
  index_last (coords (heap s !!! seg s)).

Definition head_query_point (s : State) : res Point :=
  index_first (coords (heap s !!! seg s)).

(** The smallest of the four distances the assembler measures between
    the end points of the seed (start [sb], end [eb]) and those of the
    other polyline (start [sa], end [ea]). *)
Definition nearest_endpoints (flag : bool) (sa ea sb eb : Point) : Q :=
  Qmin (Qmin (measure flag eb sa) (measure flag eb ea))
       (Qmin (measure flag sb sa) (measure flag sb ea)).

(** Every reference of the state is into the store and every object of
    the store has coordinates, as shapely guarantees for the line strings
    it builds. *)
Definition valid (s : State) : Prop :=
  Forall (fun ls => coords ls <> []) (heap s) /\
  seg s < length (heap s) /\
  Forall (fun o => o < length (heap s)) (src_segments s).

(** ** Basic facts *)

Lemma Qltb_lt (a b : Q) : Qltb a b = true <-> (a < b)%Q.
Proof.
  unfold Qltb. rewrite negb_true_iff, <- not_true_iff_false, Qle_bool_iff.
  split; [apply Qnot_le_lt | apply Qlt_not_le].
Qed.

Lemma Qltb_ge (a b : Q) : Qltb a b = false <-> (b <= a)%Q.
Proof.
  unfold Qltb. rewrite negb_false_iff. apply Qle_bool_iff.
Qed.

Lemma bind_Ok {A B} (m : res A) (f : A -> res B) (b : B) :
  m ≫= f = Ok b -> exists a, m = Ok a /\ f a = Ok b.
Proof. destruct m as [a|e]; [eauto | discriminate]. Qed.

Lemma index_first_Ok {A} (l : list A) (a : A) :
  index_first l = Ok a <-> head l = Some a.
Proof. destruct l; simpl; split; congruence. Qed.

Lemma index_last_Ok {A} (l : list A) (a : A) :
  index_last l = Ok a <-> last l = Some a.
Proof. unfold index_last. destruct (last l); split; congruence. Qed.

Lemma nonempty_head {A} (l : list A) : l <> [] -> is_Some (head l).
Proof. destruct l; [done | eauto]. Qed.

Lemma nonempty_last {A} (l : list A) : l <> [] -> is_Some (last l).
Proof.
  intros Hl. destruct (last l) eqn:E; [eauto |].
  apply last_None in E. done.
Qed.

Lemma endpoint_is_Some (ls : LineString) (loc : Location) :
  coords ls <> [] -> is_Some (endpoint ls loc).
Proof.
  intros Hne. destruct loc; [by apply nonempty_head | by apply nonempty_last].
Qed.

(** ** find_closest *)

Lemma find_closest_loop_cons h point flag o pool cs cd cl s e :
  head (coords (h !!! o)) = Some s ->
  last (coords (h !!! o)) = Some e ->
  find_closest_loop h point flag (o :: pool) cs cd cl =
    let '(cs', cl', cd') := visit flag point o s e (cs, cl, cd) in
    find_closest_loop h point flag pool cs' cd' cl'.
Proof.
  intros Hs He. simpl.
  apply index_first_Ok in Hs. apply index_last_Ok in He.
  rewrite Hs, He. simpl. unfold visit, measure.
  destruct flag;
    destruct (bool_decide (cs = None) || Qltb _ cd); simpl;
    destruct (Qltb _ _); reflexivity.
Qed.

Lemma find_closest_loop_cons_Ok h point flag o pool cs cd cl r :
  find_closest_loop h point flag (o :: pool) cs cd cl = Ok r ->
  exists s e, head (coords (h !!! o)) = Some s /\
              last (coords (h !!! o)) = Some e.
Proof.
  simpl. intros H.
  apply bind_Ok in H as (s & Hs & H).
  apply bind_Ok in H as (e & He & _).
  apply index_first_Ok in Hs. apply index_last_Ok in He. eauto.
Qed.

Lemma visit_spec flag point o s e cs cl cd cs' cl' cd' :
  visit flag point o s e (cs, cl, cd) = (cs', cl', cd') ->
  (cd' <= measure flag point s)%Q /\ (cd' <= measure flag point e)%Q /\
  (cs <> None -> (cd' <= cd)%Q) /\ cs' <> None /\
  ((cs' = cs /\ cl' = cl /\ cd' = cd) \/
   (cs' = Some o /\
    ((cl' = Some LStart /\ cd' = measure flag point s) \/
     (cl' = Some LEnd /\ cd' = measure flag point e)) /\
    (cs <> None -> (cd' < cd)%Q))).
Proof.
  unfold visit.
  destruct (bool_decide (cs = None)) eqn:E0;
    [apply bool_decide_eq_true in E0 | apply bool_decide_eq_false in E0];
    destruct (Qltb (measure flag point s) cd) eqn:E1;
    [apply Qltb_lt in E1 | apply Qltb_ge in E1
    |apply Qltb_lt in E1 | apply Qltb_ge in E1]; simpl;
    destruct (Qltb (measure flag point e) _) eqn:E2;
    (apply Qltb_lt in E2 || apply Qltb_ge in E2);
    intros [= <- <- <-];
    (split; [lra|]); (split; [lra|]);
    (split; [intros; (done || lra)|]); (split; [done|]);
    first [ left; done
          | right; split; [done|]; split;
            [ (left; done) || (right; done) | intros; (done || lra) ] ].
Qed.

Lemma endpoint_cases ls loc p s e :
  head (coords ls) = Some s -> last (coords ls) = Some e ->
  endpoint ls loc = Some p -> p = s \/ p = e.
Proof. destruct loc; simpl; intros; [left | right]; congruence. Qed.

(** The loop invariant of [find_closest]: the result is a lower bound
    of every distance seen, and it is either the state the loop started
    from or the first candidate at that distance. *)
Lemma find_closest_loop_spec h point flag pool cs cd cl r l d :
  find_closest_loop h point flag pool cs cd cl = Ok (r, l, d) ->
  (forall o loc p, o ∈ pool -> endpoint (h !!! o) loc = Some p ->
                   (d <= measure flag point p)%Q) /\
  (cs <> None -> (d <= cd)%Q) /\
  ((r = cs /\ l = cl /\ d = cd) \/
   (exists c p1 p2, r = Some c /\ pool = p1 ++ c :: p2 /\
      found_at h point flag p1 c l d /\ (cs <> None -> (d < cd)%Q))).
Proof.
  revert cs cd cl. induction pool as [|o pool IH]; intros cs cd cl H.
  - simpl in H. injection H as <- <- <-.
    split; [intros ? ? ? Hin; by apply elem_of_nil in Hin |].
    split; [intros; lra | by left].
  - destruct (find_closest_loop_cons_Ok _ _ _ _ _ _ _ _ _ H)
      as (s & e & Hs & He).
    rewrite (find_closest_loop_cons _ _ _ _ _ _ _ _ s e Hs He) in H.
    destruct (visit flag point o s e (cs, cl, cd)) as [[cs' cl'] cd'] eqn:V.
    apply visit_spec in V as (Vs & Ve & Vcd & Vsome & Vcase).
    apply IH in H as (Hall & Hcd & Hcase). specialize (Hcd Vsome).
    split; [|split].
    + intros o' loc p Hin Hp. apply elem_of_cons in Hin as [->|Hin].
      * destruct (endpoint_cases _ _ _ _ _ Hs He Hp) as [->| ->]; lra.
      * eauto.
    + intros Hcs. specialize (Vcd Hcs). lra.
    + destruct Hcase as [(-> & -> & ->) | (c & p1 & p2 & -> & -> & F & Hlt)].
      * destruct Vcase as [(-> & -> & ->) | (-> & Hloc & Hlt)]; [by left |].
        right. exists o, [], pool. repeat split; auto.
        destruct Hloc as [[-> ->] | [-> ->]].
        -- exists LStart, s. repeat split; auto; [apply not_elem_of_nil |].
           intros ? ? ? Hin; by apply elem_of_nil in Hin.
        -- exists LEnd, e. repeat split; auto; [apply not_elem_of_nil |].
           intros ? ? ? Hin; by apply elem_of_nil in Hin.
      * specialize (Hlt Vsome). right.
        destruct F as (loc & p & -> & Hp & -> & Hnin & Hfar).
        destruct (decide (c = o)) as [->|Hne].
        -- exists o, [], (p1 ++ o :: p2). repeat split; auto.
           ++ exists loc, p. repeat split; auto; [apply not_elem_of_nil |].
              intros ? ? ? Hin; by apply elem_of_nil in Hin.
           ++ intros Hcs. specialize (Vcd Hcs). lra.
        -- exists c, (o :: p1), p2. repeat split; auto.
           ++ exists loc, p. repeat split; auto.
              ** rewrite not_elem_of_cons. auto.
              ** intros o' loc' p' Hin Hp'.
                 apply elem_of_cons in Hin as [->|Hin]; [|eauto].
                 destruct (endpoint_cases _ _ _ _ _ Hs He Hp') as [->| ->];
                   lra.
           ++ intros Hcs. specialize (Vcd Hcs). lra.
Qed.

Lemma find_closest_loop_is_Some h point flag pool cs cd cl r l d :
  find_closest_loop h point flag pool cs cd cl = Ok (r, l, d) ->
  cs <> None -> r <> None.
Proof.
  revert cs cd cl. induction pool as [|o pool IH]; intros cs cd cl H Hcs.
  - simpl in H. by injection H as <- <- <-.
  - destruct (find_closest_loop_cons_Ok _ _ _ _ _ _ _ _ _ H)
      as (s & e & Hs & He).
    rewrite (find_closest_loop_cons _ _ _ _ _ _ _ _ s e Hs He) in H.
    destruct (visit flag point o s e (cs, cl, cd)) as [[cs' cl'] cd'] eqn:V.
    apply visit_spec in V as (_ & _ & _ & Vsome & _). eauto.
Qed.

Lemma find_closest_nonempty_is_Some h point flag o pool r l d :
  find_closest h point (o :: pool) flag = Ok (r, l, d) -> r <> None.
Proof.
  unfold find_closest. intros H.
  destruct (find_closest_loop_cons_Ok _ _ _ _ _ _ _ _ _ H)
    as (s & e & Hs & He).
  rewrite (find_closest_loop_cons _ _ _ _ _ _ _ _ s e Hs He) in H.
  destruct (visit flag point o s e (None, None, 0%Q))
    as [[cs' cl'] cd'] eqn:V.
  apply visit_spec in V as (_ & _ & _ & Vsome & _).
  eapply find_closest_loop_is_Some; eauto.
Qed.

(** The loop raises nothing when every segment has coordinates. *)
Lemma find_closest_loop_total h point flag pool cs cd cl :
  (forall o, o ∈ pool -> coords (h !!! o) <> []) ->
  exists r, find_closest_loop h point flag pool cs cd cl = Ok r.
Proof.
  revert cs cd cl. induction pool as [|o pool IH]; intros cs cd cl Hne.
  - simpl. eauto.
  - destruct (nonempty_head (coords (h !!! o))) as [s Hs];
      [apply Hne; left |].
    destruct (nonempty_last (coords (h !!! o))) as [e He];
      [apply Hne; left |].
    rewrite (find_closest_loop_cons _ _ _ _ _ _ _ _ s e Hs He).
    destruct (visit flag point o s e (cs, cl, cd)) as [[cs' cl'] cd'].
    apply IH. intros o' Hin. apply Hne. by right.
Qed.

(** What [find_closest] returns on a pool that is not empty. *)
Lemma find_closest_spec h point flag pool r l d :
  pool <> [] ->
  find_closest h point pool flag = Ok (r, l, d) ->
  (forall o loc p, o ∈ pool -> endpoint (h !!! o) loc = Some p ->
                   (d <= measure flag point p)%Q) /\
  exists c p1 p2, r = Some c /\ pool = p1 ++ c :: p2 /\
                  found_at h point flag p1 c l d.
Proof.
  intros Hpool H. destruct pool as [|o pool]; [done|].
  pose proof (find_closest_nonempty_is_Some _ _ _ _ _ _ _ _ H) as Hr.
  apply find_closest_loop_spec in H as (Hall & _ & Hcase).
  split; [done|].
  destruct Hcase as [(-> & _) | (c & p1 & p2 & -> & E & F & _)]; [done|].
  eauto 10.
Qed.

(** *** Removing the candidate found *)

Section Removal.

(** Shapely compares geometries by their coordinates (where it defines
    [==] at all): two geometries that compare equal have the same
    coordinate sequence. *)
Hypothesis geom_eq_sound : forall a b, geom_eq a b = true -> a = b.

Lemma list_remove_found h point flag p1 c p2 l d :
  found_at h point flag p1 c l d ->
  list_remove h c (p1 ++ c :: p2) = Ok (p1 ++ p2).
Proof using geom_eq_sound.
  intros (loc & p & -> & Hp & -> & Hnin & Hfar).
  induction p1 as [|o p1 IH]; simpl.
  - by rewrite bool_decide_eq_true_2.
  - apply not_elem_of_cons in Hnin as [Hne Hnin].
    rewrite bool_decide_eq_false_2 by done. simpl.
    destruct (geom_eq (h !!! o) (h !!! c)) eqn:E.
    + apply geom_eq_sound in E.
      assert (measure flag point p < measure flag point p)%Q as Habs.
      { apply (Hfar o loc p); [by left | by rewrite E]. }
      lra.
    + rewrite IH; [done | done |].
      intros o' loc' p' Hin. apply Hfar. by right.
Qed.

End Removal.

(** Without any assumption on [==], [remove] still deletes exactly one
    element when the target occurs in the list. *)
Lemma list_remove_length h c l :
  c ∈ l -> exists l', list_remove h c l = Ok l' /\ S (length l') = length l.
Proof.
  induction l as [|o l IH]; intros Hin; [by apply elem_of_nil in Hin|].
  simpl. destruct (bool_decide (o = c) || geom_eq _ _) eqn:E; [eauto|].
  apply orb_false_iff in E as [E _]. apply bool_decide_eq_false in E.
  apply elem_of_cons in Hin as [->|Hin]; [done|].
  destruct (IH Hin) as (l' & -> & Hlen). simpl. eexists; split; [done|].
  simpl. lia.
Qed.

(** ** The loop body *)

Lemma within_Some c d tolerance c' :
  within c d tolerance = Some c' <-> c = Some c' /\ (d < tolerance)%Q.
Proof.
  unfold within. destruct c as [c|]; [|split; [done | by intros [? _]]].
  destruct (Qltb d tolerance) eqn:E.
  - apply Qltb_lt in E. split; [intros [= ->]; done | intros [[= ->] _]; done].
  - apply Qltb_ge in E. split; [done | intros [_ ?]; lra].
Qed.

Lemma within_None c d tolerance :
  within c d tolerance = None <-> c = None \/ (tolerance <= d)%Q.
Proof.
  unfold within. destruct c as [c|]; [|split; auto].
  destruct (Qltb d tolerance) eqn:E.
  - apply Qltb_lt in E. split; [done | intros [?|?]; [done | lra]].
  - apply Qltb_ge in E. split; auto.
Qed.

Lemma loop_body_tail tolerance flag s start end_ c loc d pool' :
  head (coords (heap s !!! seg s)) = Some start ->
  last (coords (heap s !!! seg s)) = Some end_ ->
  find_closest (heap s) end_ (src_segments s) flag = Ok (Some c, loc, d) ->
  (d < tolerance)%Q ->
  list_remove (heap s) c (src_segments s) = Ok pool' ->
  loop_body tolerance flag s = Ok (Continue (joined s true c loc pool')).
Proof.
  intros Hs He Hf Hd Hr. unfold loop_body.
  apply index_first_Ok in Hs. apply index_last_Ok in He.
  rewrite Hs, He. simpl. rewrite Hf. simpl.
  rewrite (proj2 (within_Some _ _ _ c)) by done.
  rewrite Hr. reflexivity.
Qed.

Lemma loop_body_head tolerance flag s start end_ ct lt dt c loc d pool' :
  head (coords (heap s !!! seg s)) = Some start ->
  last (coords (heap s !!! seg s)) = Some end_ ->
  find_closest (heap s) end_ (src_segments s) flag = Ok (ct, lt, dt) ->
  within ct dt tolerance = None ->
  find_closest (heap s) start (src_segments s) flag = Ok (Some c, loc, d) ->
  (d < tolerance)%Q ->
  list_remove (heap s) c (src_segments s) = Ok pool' ->
  loop_body tolerance flag s = Ok (Continue (joined s false c loc pool')).
Proof.
  intros Hs He Hft Hw Hf Hd Hr. unfold loop_body.
  apply index_first_Ok in Hs. apply index_last_Ok in He.
  rewrite Hs, He. simpl. rewrite Hft. simpl. rewrite Hw, Hf. simpl.
  rewrite (proj2 (within_Some _ _ _ c)) by done.
  rewrite Hr. reflexivity.
Qed.

Lemma loop_body_break tolerance flag s start end_ ct lt dt ch lh dh :
  head (coords (heap s !!! seg s)) = Some start ->
  last (coords (heap s !!! seg s)) = Some end_ ->
  find_closest (heap s) end_ (src_segments s) flag = Ok (ct, lt, dt) ->
  within ct dt tolerance = None ->
  find_closest (heap s) start (src_segments s) flag = Ok (ch, lh, dh) ->
  within ch dh tolerance = None ->
  loop_body tolerance flag s = Ok (Break s).
Proof.
  intros Hs He Hft Hwt Hfh Hwh. unfold loop_body.
  apply index_first_Ok in Hs. apply index_last_Ok in He.
  rewrite Hs, He. simpl. rewrite Hft. simpl. rewrite Hwt, Hfh. simpl.
  by rewrite Hwh.
Qed.

(** Every way the loop body can end without an exception. *)
Lemma loop_body_inv tolerance flag s r :
  loop_body tolerance flag s = Ok r ->
  exists start end_ ct lt dt,
    head (coords (heap s !!! seg s)) = Some start /\
    last (coords (heap s !!! seg s)) = Some end_ /\
    find_closest (heap s) end_ (src_segments s) flag = Ok (ct, lt, dt) /\
    ((exists c pool', ct = Some c /\ (dt < tolerance)%Q /\
        list_remove (heap s) c (src_segments s) = Ok pool' /\
        r = Continue (joined s true c lt pool')) \/
     (within ct dt tolerance = None /\
      exists ch lh dh,
        find_closest (heap s) start (src_segments s) flag = Ok (ch, lh, dh) /\
        ((exists c pool', ch = Some c /\ (dh < tolerance)%Q /\
            list_remove (heap s) c (src_segments s) = Ok pool' /\
            r = Continue (joined s false c lh pool')) \/
         (within ch dh tolerance = None /\ r = Break s)))).
Proof.
  unfold loop_body. intros H.
  apply bind_Ok in H as (start & Hs & H).
  apply bind_Ok in H as (end_ & He & H).
  apply bind_Ok in H as ([[ct lt] dt] & Hft & H).
  apply index_first_Ok in Hs. apply index_last_Ok in He.
  exists start, end_, ct, lt, dt. repeat (split; [done|]).
  destruct (within ct dt tolerance) as [c|] eqn:Wt.
  - apply within_Some in Wt as [-> Hd].
    apply bind_Ok in H as (pool' & Hr & [= <-]).
    left. eauto 10.
  - right. split; [done|].
    apply bind_Ok in H as ([[ch lh] dh] & Hfh & H).
    exists ch, lh, dh. split; [done|].
    destruct (within ch dh tolerance) as [c|] eqn:Wh.
    + apply within_Some in Wh as [-> Hd].
      apply bind_Ok in H as (pool' & Hr & [= <-]).
      left. eauto 10.
    + injection H as <-. by right.
Qed.

Lemma list_remove_Ok_length h c l l' :
  list_remove h c l = Ok l' -> S (length l') = length l.
Proof.
  revert l'. induction l as [|o l IH]; intros l'; simpl; [done|].
  destruct (bool_decide (o = c) || geom_eq _ _); [by intros [= ->]|].
  intros H. apply bind_Ok in H as (l'' & Hl & [= <-]).
  simpl. by rewrite (IH _ Hl).
Qed.

Lemma find_closest_nil h point flag :
  find_closest h point [] flag = Ok (None, None, 0%Q).
Proof. reflexivity. Qed.

Lemma loop_body_Break tolerance flag s s' :
  loop_body tolerance flag s = Ok (Break s') -> s' = s.
Proof.
  intros H. apply loop_body_inv in H
    as (start & end_ & ct & lt & dt & _ & _ & _ & H).
  destruct H as [(c & pool' & _ & _ & _ & H) | (_ & ch & lh & dh & _ & H)];
    [done|].
  destruct H as [(c & pool' & _ & _ & _ & H) | (_ & H)]; congruence.
Qed.

(** A match moves one object: the pool loses an element, the chain gains
    the candidate at one of its two ends. *)
Lemma loop_body_Continue tolerance flag s s' :
  loop_body tolerance flag s = Ok (Continue s') ->
  exists at_tail c loc pool',
    c ∈ src_segments s /\
    list_remove (heap s) c (src_segments s) = Ok pool' /\
    s' = joined s at_tail c loc pool'.
Proof.
  intros H. apply loop_body_inv in H
    as (start & end_ & ct & lt & dt & _ & _ & Hft & H).
  assert (forall point c l d,
    find_closest (heap s) point (src_segments s) flag = Ok (Some c, l, d) ->
    c ∈ src_segments s) as Hin.
  { intros point c l d Hf.
    destruct (src_segments s) as [|o pool] eqn:E; [done|].
    apply find_closest_spec in Hf as (_ & c' & p1 & p2 & [= <-] & -> & _);
      [|done].
    apply elem_of_app. right. by left. }
  destruct H as [(c & pool' & -> & _ & Hr & H)
                | (_ & ch & lh & dh & Hfh & H)].
  - injection H as ->. exists true, c, lt, pool'. eauto.
  - destruct H as [(c & pool' & -> & _ & Hr & H) | (_ & H)]; [|done].
    injection H as ->. exists false, c, lh, pool'. eauto.
Qed.

Lemma joined_src_segments s at_tail c loc pool' :
  src_segments (joined s at_tail c loc pool') = pool'.
Proof. by destruct at_tail. Qed.

Lemma joined_length_chain s at_tail c loc pool' :
  length (segments_in_order (joined s at_tail c loc pool')) =
  S (length (segments_in_order s)).
Proof.
  destruct at_tail; simpl; [|done]. rewrite length_app. simpl. lia.
Qed.

Lemma loop_body_Continue_count tolerance flag s s' :
  loop_body tolerance flag s = Ok (Continue s') ->
  S (length (src_segments s')) = length (src_segments s) /\
  length (segments_in_order s') = S (length (segments_in_order s)).
Proof.
  intros H.
  apply loop_body_Continue in H as (at_tail & c & loc & pool' & _ & Hr & ->).
  rewrite joined_src_segments, joined_length_chain.
  by rewrite (list_remove_Ok_length _ _ _ _ Hr).
Qed.

(** The points a pass of the loop body queries with are
    [tail_query_point] and, when it gets that far, [head_query_point]. *)
Lemma loop_body_query_points tolerance flag s r :
  loop_body tolerance flag s = Ok r ->
  exists start end_ ct lt dt,
    head_query_point s = Ok start /\ tail_query_point s = Ok end_ /\
    find_closest (heap s) end_ (src_segments s) flag = Ok (ct, lt, dt) /\
    (within ct dt tolerance = None ->
     exists rh,
       find_closest (heap s) start (src_segments s) flag = Ok rh).
Proof.
  intros H. apply loop_body_inv in H
    as (start & end_ & ct & lt & dt & Hs & He & Hft & H).
  exists start, end_, ct, lt, dt. unfold head_query_point, tail_query_point.
  split; [by apply index_first_Ok|]. split; [by apply index_last_Ok|].
  split; [done|]. intros Hw.
  destruct H as [(c & pool' & -> & Hd & _) | (_ & ch & lh & dh & Hfh & _)].
  - assert (within (Some c) dt tolerance = Some c) as Hw'
      by (by apply within_Some).
    congruence.
  - eauto.
Qed.

(** After a match [seg] is the polyline just joined: the last of the
    chain after a tail match, the first after a head match. *)
Lemma loop_body_seg tolerance flag s s' :
  loop_body tolerance flag s = Ok (Continue s') ->
  last (segments_in_order s') = Some (seg s') \/
  head (segments_in_order s') = Some (seg s').
Proof.
  intros H.
  apply loop_body_Continue in H as (at_tail & c & loc & pool' & _ & _ & ->).
  destruct at_tail; simpl; [left; apply last_snoc | by right].
Qed.

(** ** The while loop *)

Lemma reachable_trans tolerance flag s0 s1 s2 :
  reachable tolerance flag s0 s1 -> reachable tolerance flag s1 s2 ->
  reachable tolerance flag s0 s2.
Proof.
  intros H01 H12. induction H12 as [|s s' _ IH Hne Hb]; [done|].
  by eapply reachable_step.
Qed.

Lemma while_loop_reachable tolerance flag fuel s s' k :
  while_loop tolerance flag fuel s = Some (Ok (s', k)) ->
  reachable tolerance flag s s'.
Proof.
  revert s k. induction fuel as [|fuel IH]; intros s k; simpl.
  - destruct (src_segments s); [|done]. intros [= <- _]. constructor.
  - destruct (src_segments s) as [|o pool] eqn:E.
    { intros [= <- _]. constructor. }
    destruct (loop_body tolerance flag s) as [[s1|s1]|e] eqn:B; [| |done].
    + destruct (while_loop tolerance flag fuel s1) as [[[s2 k2]|e]|] eqn:W;
        [|done|done].
      intros [= <- _]. apply IH in W.
      eapply reachable_trans; [|exact W].
      eapply reachable_step; [constructor | by rewrite E | done].
    + intros [= <- _]. apply loop_body_Break in B as ->. constructor.
Qed.

(** [fuel] iterations are enough when the pool has at most [fuel]
    elements, and the loop then runs at most that many iterations. *)
Lemma while_loop_fuel tolerance flag fuel s :
  length (src_segments s) <= fuel ->
  exists r, while_loop tolerance flag fuel s = Some r /\
    forall s' k, r = Ok (s', k) -> k <= length (src_segments s).
Proof.
  revert s. induction fuel as [|fuel IH]; intros s Hlen; simpl.
  - destruct (src_segments s); [|simpl in Hlen; lia].
    eexists; split; [done|]. intros ? ? [= _ <-]. done.
  - destruct (src_segments s) as [|o pool] eqn:E.
    { eexists; split; [done|]. intros ? ? [= _ <-]. done. }
    destruct (loop_body tolerance flag s) as [[s1|s1]|e] eqn:B.
    + apply loop_body_Continue_count in B as [B _]. rewrite E in B.
      simpl in *. destruct (IH s1) as (r & -> & Hk); [lia|].
      destruct r as [[s2 k2]|e].
      * eexists; split; [done|]. intros ? ? [= _ <-].
        specialize (Hk _ _ eq_refl). lia.
      * eexists; split; [done|]. done.
    + eexists; split; [done|]. intros ? ? [= _ <-]. simpl. lia.
    + eexists; split; [done|]. done.
Qed.

(** ** Seeding *)

Lemma list_pop_snoc {A} (l : list A) (a : A) :
  list_pop (l ++ [a]) = Ok (a, l).
Proof. unfold list_pop. by rewrite last_snoc, removelast_last. Qed.

Lemma list_pop_Ok {A} (l l' : list A) (a : A) :
  list_pop l = Ok (a, l') -> l = l' ++ [a].
Proof.
  destruct l as [|b l _] using rev_ind; [done|].
  rewrite list_pop_snoc. by intros [= -> ->].
Qed.

Lemma seed_Ok h pool s0 :
  seed h pool = Ok s0 ->
  exists o, pool = src_segments s0 ++ [o] /\ s0 = mkState h (src_segments s0) [o] o.
Proof.
  unfold seed. intros H. apply bind_Ok in H as ([o pool'] & Hp & [= <-]).
  apply list_pop_Ok in Hp as ->. eauto.
Qed.

Lemma seed_nonempty h pool :
  pool <> [] -> exists s0, seed h pool = Ok s0.
Proof.
  destruct pool as [|o pool _] using rev_ind; [done|]. intros _.
  unfold seed. rewrite list_pop_snoc. simpl. eauto.
Qed.

(** ** Invariants of the assembly *)

Lemma wf_seed source h pool s0 :
  read_source source = (h, pool) -> seed h pool = Ok s0 -> wf h s0.
Proof.
  unfold read_source. intros [= <- <-] Hs.
  apply seed_Ok in Hs as (o & Hpool & ->). simpl.
  set (n := length (mkLineString <$> omap id source)) in *.
  split; simpl.
  - done.
  - rewrite <- Hpool. apply NoDup_seq.
  - intros o'. rewrite <- Hpool. rewrite elem_of_seq. lia.
  - done.
Qed.

Lemma flip_length h o : length (flip h o) = length h.
Proof. unfold flip. apply length_insert. Qed.

Lemma flip_other h o o' : o <> o' -> flip h o !!! o' = h !!! o'.
Proof. intros Hne. unfold flip. by apply list_lookup_total_insert_ne. Qed.

Lemma flip_same h o :
  o < length h -> coords (flip h o !!! o) = rev (coords (h !!! o)).
Proof.
  intros Hlt. unfold flip. by rewrite list_lookup_total_insert_eq.
Qed.

Lemma joined_heap_other s at_tail c loc pool' o :
  o <> c -> heap (joined s at_tail c loc pool') !!! o = heap s !!! o.
Proof.
  intros Hne. destruct at_tail; simpl; case_bool_decide;
    try done; by apply flip_other.
Qed.

Lemma joined_heap_length s at_tail c loc pool' :
  length (heap (joined s at_tail c loc pool')) = length (heap s).
Proof.
  destruct at_tail; simpl; case_bool_decide; try done; apply flip_length.
Qed.

Lemma joined_chain_perm s at_tail c loc pool' :
  segments_in_order (joined s at_tail c loc pool') ≡ₚ
  c :: segments_in_order s.
Proof.
  destruct at_tail; simpl; [|done].
  by rewrite Permutation_app_comm.
Qed.

Section Frame.

Hypothesis geom_eq_sound : forall a b, geom_eq a b = true -> a = b.

(** Under that reading of [==], the object removed from the pool is
    the candidate itself. *)
Lemma loop_body_moves tolerance flag s s' :
  loop_body tolerance flag s = Ok (Continue s') ->
  exists at_tail c loc p1 p2,
    src_segments s = p1 ++ c :: p2 /\
    s' = joined s at_tail c loc (p1 ++ p2).
Proof using geom_eq_sound.
  intros H. apply loop_body_inv in H
    as (start & end_ & ct & lt & dt & _ & _ & Hft & H).
  assert (forall point c l d pool',
    find_closest (heap s) point (src_segments s) flag = Ok (Some c, l, d) ->
    list_remove (heap s) c (src_segments s) = Ok pool' ->
    exists p1 p2, src_segments s = p1 ++ c :: p2 /\ pool' = p1 ++ p2)
    as Hrem.
  { intros point c l d pool' Hf Hr.
    destruct (src_segments s) as [|o pool] eqn:E; [done|].
    apply find_closest_spec in Hf as (_ & c' & p1 & p2 & [= <-] & Hp & F);
      [|done].
    rewrite Hp in Hr |- *.
    rewrite (list_remove_found geom_eq_sound _ _ _ _ _ _ _ _ F) in Hr.
    injection Hr as <-. eauto. }
  destruct H as [(c & pool' & -> & _ & Hr & H)
                | (_ & ch & lh & dh & Hfh & H)].
  - injection H as ->.
    destruct (Hrem _ _ _ _ _ Hft Hr) as (p1 & p2 & Hp & ->).
    exists true, c, lt, p1, p2. eauto.
  - destruct H as [(c & pool' & -> & _ & Hr & H) | (_ & H)]; [|done].
    injection H as ->.
    destruct (Hrem _ _ _ _ _ Hfh Hr) as (p1 & p2 & Hp & ->).
    exists false, c, lh, p1, p2. eauto.
Qed.

Lemma wf_step h0 tolerance flag s s' :
  wf h0 s -> loop_body tolerance flag s = Ok (Continue s') -> wf h0 s'.
Proof using geom_eq_sound.
  intros [Hlen Hnd Hb Hp] H.
  apply loop_body_moves in H as (at_tail & c & loc & p1 & p2 & E & ->).
  assert (src_segments s ++ segments_in_order s ≡ₚ
          (p1 ++ p2) ++ segments_in_order
                           (joined s at_tail c loc (p1 ++ p2))) as Hperm.
  { rewrite joined_chain_perm, E.
    rewrite <- !app_assoc. simpl.
    rewrite (Permutation_middle p2). rewrite !app_assoc.
    by rewrite <- Permutation_middle. }
  split.
  - by rewrite joined_heap_length.
  - rewrite joined_src_segments. by rewrite <- Hperm.
  - rewrite joined_src_segments. intros o Ho. apply Hb.
    by rewrite Hperm.
  - rewrite joined_src_segments. intros o Ho.
    assert (o <> c) as Hne.
    { intros ->. rewrite E in Hnd.
      apply NoDup_app in Hnd as (Hnd & _ & _).
      apply NoDup_app in Hnd as (_ & Hnd1 & Hnd2).
      apply NoDup_cons in Hnd2 as [Hnd2 _].
      apply elem_of_app in Ho as [Ho|Ho]; [|done].
      apply (Hnd1 c Ho). by left. }
    rewrite joined_heap_other by done. apply Hp.
    rewrite E. apply elem_of_app in Ho as [Ho|Ho];
      apply elem_of_app; [by left | right; by right].
Qed.

Lemma wf_reachable h0 tolerance flag s0 s :
  wf h0 s0 -> reachable tolerance flag s0 s -> wf h0 s.
Proof using geom_eq_sound.
  intros H0 Hr. induction Hr as [|s s' _ IH _ Hb]; [done|].
  by eapply wf_step.
Qed.

End Frame.

(** ** The running minimum of the specification *)

Lemma candidates_cons h point flag o pool s e :
  head (coords (h !!! o)) = Some s ->
  last (coords (h !!! o)) = Some e ->
  candidates h point flag (o :: pool) =
    (o, LStart, measure flag point s) :: (o, LEnd, measure flag point e)
      :: candidates h point flag pool.
Proof. intros Hs He. unfold candidates. simpl. by rewrite Hs, He. Qed.

Lemma elem_of_candidates h point flag pool o loc d :
  (o, loc, d) ∈ candidates h point flag pool <->
  o ∈ pool /\ exists p, endpoint (h !!! o) loc = Some p /\
                        d = measure flag point p.
Proof.
  unfold candidates. rewrite list_elem_of_In, in_flat_map. split.
  - intros (o' & Hin & Hc). apply list_elem_of_In in Hin, Hc.
    apply list_elem_of_omap in Hc as (loc' & _ & Hc).
    apply fmap_Some in Hc as (p & Hp & [= <- <- ->]). eauto.
  - intros (Hin & p & Hp & ->). exists o.
    split; [by apply list_elem_of_In|]. apply list_elem_of_In.
    apply list_elem_of_omap. exists loc.
    split; [destruct loc; [left | right; left] | by rewrite Hp].
Qed.

Lemma find_closest_loop_fold h point flag pool c loc d :
  (forall o, o ∈ pool -> coords (h !!! o) <> []) ->
  find_closest_loop h point flag pool (Some c) d (Some loc) =
    let '(c', loc', d') :=
      fold_left better (candidates h point flag pool) (c, loc, d) in
    Ok (Some c', Some loc', d').
Proof.
  revert c loc d. induction pool as [|o pool IH]; intros c loc d Hne.
  - reflexivity.
  - destruct (nonempty_head (coords (h !!! o))) as [s Hs];
      [apply Hne; left |].
    destruct (nonempty_last (coords (h !!! o))) as [e He];
      [apply Hne; left |].
    rewrite (find_closest_loop_cons _ _ _ _ _ _ _ _ s e Hs He).
    rewrite (candidates_cons _ _ _ _ _ s e Hs He). simpl.
    assert (forall o', o' ∈ pool -> coords (h !!! o') <> []) as Hne'
      by (intros o' Hin; apply Hne; by right).
    unfold better at 2 3. simpl.
    destruct (Qltb (measure flag point s) d); simpl;
      destruct (Qltb (measure flag point e) _); by rewrite IH.
Qed.

Lemma find_closest_fold h point flag o pool s e :
  head (coords (h !!! o)) = Some s ->
  last (coords (h !!! o)) = Some e ->
  (forall o', o' ∈ pool -> coords (h !!! o') <> []) ->
  find_closest h point (o :: pool) flag =
    let '(c', loc', d') :=
      fold_left better
        ((o, LEnd, measure flag point e) :: candidates h point flag pool)
        (o, LStart, measure flag point s) in
    Ok (Some c', Some loc', d').
Proof.
  intros Hs He Hne. unfold find_closest.
  rewrite (find_closest_loop_cons _ _ _ _ _ _ _ _ s e Hs He). simpl.
  unfold better at 2. simpl.
  destruct (Qltb (measure flag point e) _); by rewrite find_closest_loop_fold.
Qed.

(** ** Properties of the specification *)

(** C7: on an empty pool [find_closest] returns no candidate and the
    distance zero; on a pool that is not empty a result has a candidate,
    so the candidate is [None] exactly when the pool is empty; and a
    pool of segments that all have coordinates does give a result. *)
Theorem find_closest_None_iff_empty h point flag pool :
  find_closest h point [] flag = Ok (None, None, 0%Q) /\
  (forall c l d, find_closest h point pool flag = Ok (c, l, d) ->
                 (c = None <-> pool = [])) /\
  (pool <> [] -> (forall o, o ∈ pool -> coords (h !!! o) <> []) ->
   exists c l d, find_closest h point pool flag = Ok (Some c, Some l, d)).
Proof.
  split; [reflexivity|]. split.
  - intros c l d H. destruct pool as [|o pool].
    + by injection H as <- <- <-.
    + apply find_closest_nonempty_is_Some in H. split; [done | done].
  - intros Hpool Hne.
    destruct (find_closest_loop_total h point flag pool None 0%Q None Hne)
      as ([[r l] d] & H).
    fold (find_closest h point pool flag) in H.
    destruct (find_closest_spec _ _ _ _ _ _ _ Hpool H)
      as (_ & c & p1 & p2 & -> & _ & (loc & p & -> & _)).
    eauto.
Qed.

(** C2: on a pool that is not empty (of segments with coordinates)
    [find_closest] returns the result of the streaming running minimum
    over the (segment, end point) pairs in pool order, start before end,
    replaced only by a strictly smaller distance; that pair is one of
    the candidates and its distance is the minimum over all of them. *)
Theorem find_closest_running_min h point flag pool :
  pool <> [] ->
  (forall o, o ∈ pool -> coords (h !!! o) <> []) ->
  exists c loc d,
    find_closest h point pool flag = Ok (Some c, Some loc, d) /\
    running_min (candidates h point flag pool) = Some (c, loc, d) /\
    (c, loc, d) ∈ candidates h point flag pool /\
    forall c' loc' d', (c', loc', d') ∈ candidates h point flag pool ->
                       (d <= d')%Q.
Proof.
  intros Hpool Hne. destruct pool as [|o pool]; [done|].
  destruct (nonempty_head (coords (h !!! o))) as [s Hs];
    [apply Hne; left |].
  destruct (nonempty_last (coords (h !!! o))) as [e He];
    [apply Hne; left |].
  assert (forall o', o' ∈ pool -> coords (h !!! o') <> []) as Hne'
    by (intros o' Hin; apply Hne; by right).
  pose proof (find_closest_fold h point flag o pool s e Hs He Hne') as Hf.
  rewrite (candidates_cons _ _ _ _ _ s e Hs He). simpl running_min.
  destruct (fold_left better _ _) as [[c loc] d] eqn:F.
  exists c, loc, d. split; [done|]. split; [done|].
  rewrite <- (candidates_cons _ _ _ _ _ s e Hs He).
  destruct (find_closest_spec _ _ _ _ _ _ _ Hpool Hf)
    as (Hmin & c' & p1 & p2 & [= <-] & Hp & (loc' & p & [= <-] & Hep & Hd & _)).
  split.
  - apply elem_of_candidates. split; [|eauto].
    rewrite Hp. apply elem_of_app. right. by left.
  - intros c' loc' d' Hin.
    apply elem_of_candidates in Hin as (Hin & p' & Hp' & ->). eauto.
Qed.

Lemma all_coords_fold (h : Heap) (chain : list nat) (acc : list Point) :
  fold_left (fun all_coords seg => all_coords ++ coords (h !!! seg))
    chain acc =
  acc ++ concat ((fun seg => coords (h !!! seg)) <$> chain).
Proof.
  revert acc. induction chain as [|o chain IH]; intros acc; simpl.
  - by rewrite app_nil_r.
  - by rewrite IH, app_assoc.
Qed.

(** C8: in combine mode one polyline is written, the concatenation of
    the coordinate sequences of the chain's polylines in chain order,
    nothing removed: its number of points is the sum of theirs. *)
Theorem combine_concatenates s :
  write_output true s =
    [concat ((fun seg => coords (heap s !!! seg)) <$> segments_in_order s)]
  /\
  length (all_coords (heap s) (segments_in_order s)) =
    sum_list ((fun seg => length (coords (heap s !!! seg)))
                <$> segments_in_order s).
Proof.
  unfold write_output, all_coords. rewrite all_coords_fold. simpl.
  split; [done|].
  induction (segments_in_order s) as [|o chain IH]; csimpl; [done|].
  by rewrite length_app, IH.
Qed.

(** C9: when exactly one polyline is read, whatever the tolerance, the
    chain is that one object with the coordinates it was read with, no
    polyline is left over, and that polyline is what is written. *)
Theorem single_segment_identity source p tolerance flag combine :
  omap id source = [p] ->
  exists s,
    join_em source tolerance flag combine = Some (Ok ([p], s)) /\
    segments_in_order s = [0] /\
    coords (heap s !!! 0) = p /\
    src_segments s = [].
Proof.
  intros Hsrc. unfold join_em, read_source. rewrite Hsrc. simpl.
  exists (mkState [mkLineString p] [] [0] 0).
  destruct combine; done.
Qed.

Lemma read_source_pool source h pool :
  read_source source = (h, pool) ->
  h = mkLineString <$> omap id source /\ pool = seq 0 (length h).
Proof. unfold read_source. by intros [= <- <-]. Qed.

Lemma join_em_Ok source tolerance flag combine out s :
  join_em source tolerance flag combine = Some (Ok (out, s)) ->
  exists h pool s0,
    read_source source = (h, pool) /\ seed h pool = Ok s0 /\
    reachable tolerance flag s0 s /\ out = write_output combine s.
Proof.
  unfold join_em. destruct (read_source source) as [h pool] eqn:R.
  destruct (seed h pool) as [s0|e] eqn:S0; [|done].
  destruct (while_loop _ _ _ s0) as [[[s' k]|e]|] eqn:W; [|done|done].
  intros [= <- <-]. apply while_loop_reachable in W. eauto 10.
Qed.

(** C5: for a pool of [n >= 1] polylines the seed is taken and the loop
    terminates (with a result or an exception) within the fuel
    [join_em] gives it, after at most [n] iterations; an iteration that
    does not leave the loop removes exactly one polyline from the pool,
    and an iteration that breaks leaves the state as it is. *)
Theorem assembly_terminates source tolerance flag h pool :
  read_source source = (h, pool) ->
  pool <> [] ->
  exists s0,
    seed h pool = Ok s0 /\
    (exists r,
       while_loop tolerance flag (length (src_segments s0)) s0 = Some r /\
       forall s k, r = Ok (s, k) -> k <= length pool) /\
    (forall combine, is_Some (join_em source tolerance flag combine)) /\
    (forall s s', loop_body tolerance flag s = Ok (Continue s') ->
                  S (length (src_segments s')) = length (src_segments s)) /\
    (forall s s', loop_body tolerance flag s = Ok (Break s') -> s' = s).
Proof.
  intros R Hpool. destruct (seed_nonempty h pool Hpool) as [s0 S0].
  exists s0. split; [done|].
  destruct (while_loop_fuel tolerance flag (length (src_segments s0)) s0)
    as (r & W & Hk); [done|].
  apply seed_Ok in S0 as Hs0. destruct Hs0 as (o & Hp & _).
  assert (length (src_segments s0) <= length pool) as Hle.
  { rewrite Hp, length_app. lia. }
  split; [|split; [|split]].
  - exists r. split; [done|]. intros s k ->.
    specialize (Hk _ _ eq_refl). lia.
  - intros combine. unfold join_em. rewrite R, S0, W.
    destruct r as [[s k]|e]; eauto.
  - intros s s' H. by apply loop_body_Continue_count in H as [? _].
  - intros s s'. apply loop_body_Break.
Qed.

Lemma reachable_count tolerance flag s0 s :
  reachable tolerance flag s0 s ->
  length (segments_in_order s) + length (src_segments s) =
  length (segments_in_order s0) + length (src_segments s0).
Proof.
  induction 1 as [|s s' _ IH _ Hb]; [done|].
  apply loop_body_Continue_count in Hb as [Hp Hc]. lia.
Qed.

(** C6: seeding moves one polyline from the pool to the chain; in every
    state of the loop, and in the state it ends in, the chain and the
    pool together hold as many polylines as were read; a match takes one
    element out of the pool and puts the candidate at one end of the
    chain, and (when geometries that compare equal have equal
    coordinates) the element taken out is that candidate. *)
Theorem chain_plus_pool_constant source tolerance flag h pool s0 :
  read_source source = (h, pool) ->
  seed h pool = Ok s0 ->
  (length (segments_in_order s0) = 1 /\
   S (length (src_segments s0)) = length pool) /\
  (forall s, reachable tolerance flag s0 s ->
     length (segments_in_order s) + length (src_segments s) =
     length pool) /\
  (forall fuel s k,
     while_loop tolerance flag fuel s0 = Some (Ok (s, k)) ->
     length (segments_in_order s) + length (src_segments s) =
     length pool) /\
  (forall s s', loop_body tolerance flag s = Ok (Continue s') ->
     exists c, c ∈ src_segments s /\
       S (length (src_segments s')) = length (src_segments s) /\
       (segments_in_order s' = segments_in_order s ++ [c] \/
        segments_in_order s' = c :: segments_in_order s)) /\
  ((forall a b, geom_eq a b = true -> a = b) ->
   forall s s', loop_body tolerance flag s = Ok (Continue s') ->
     exists c, src_segments s ≡ₚ c :: src_segments s' /\
               segments_in_order s' ≡ₚ c :: segments_in_order s).
Proof.
  intros R S0. apply seed_Ok in S0 as (o & Hp & Hs0).
  assert (length (segments_in_order s0) + length (src_segments s0) =
          length pool) as Hinit.
  { rewrite Hp, length_app, Hs0. simpl. lia. }
  split; [|split; [|split; [|split]]].
  - rewrite Hs0 in *. simpl in *. lia.
  - intros s Hr. apply reachable_count in Hr. lia.
  - intros fuel s k W. apply while_loop_reachable in W.
    apply reachable_count in W. lia.
  - intros s s' H. pose proof (loop_body_Continue_count _ _ _ _ H) as [Hl _].
    apply loop_body_Continue in H as (at_tail & c & loc & pool' & Hin & _ & ->).
    exists c. split; [done|]. split; [done|].
    destruct at_tail; simpl; auto.
  - intros Hsound s s' H.
    apply (loop_body_moves Hsound) in H
      as (at_tail & c & loc & p1 & p2 & E & ->).
    exists c. rewrite joined_src_segments, E. split.
    + by rewrite <- Permutation_middle.
    + apply joined_chain_perm.
Qed.

(** C10: (when geometries that compare equal have equal coordinates) in
    every state of the loop an object still in the pool is an object
    that was read and is exactly as it was read; so a polyline left
    over when [join_em] stops has the coordinate sequence of its
    feature in the source. *)
Theorem leftovers_unchanged source tolerance flag combine out s :
  (forall a b, geom_eq a b = true -> a = b) ->
  join_em source tolerance flag combine = Some (Ok (out, s)) ->
  (forall o, o ∈ src_segments s ->
     exists p, omap id source !! o = Some p /\ coords (heap s !!! o) = p) /\
  (forall h pool s0 s1,
     read_source source = (h, pool) -> seed h pool = Ok s0 ->
     reachable tolerance flag s0 s1 ->
     forall o, o ∈ src_segments s1 -> heap s1 !!! o = h !!! o).
Proof.
  intros Hsound H.
  assert (forall h pool s0 s1,
     read_source source = (h, pool) -> seed h pool = Ok s0 ->
     reachable tolerance flag s0 s1 -> wf h s1) as Hwf.
  { intros h pool s0 s1 R S0 Hr.
    eapply (wf_reachable Hsound); [|exact Hr]. by eapply wf_seed. }
  split.
  - apply join_em_Ok in H as (h & pool & s0 & R & S0 & Hr & _).
    destruct (Hwf _ _ _ _ R S0 Hr) as [_ _ Hb Hp].
    intros o Ho. rewrite (Hp o Ho).
    apply read_source_pool in R as [-> _].
    assert (o < length (mkLineString <$> omap id source)) as Hlt.
    { apply Hb. apply elem_of_app. by left. }
    rewrite length_fmap in Hlt.
    apply lookup_lt_is_Some in Hlt as [p Hp'].
    exists p. split; [done|].
    apply (f_equal (fmap mkLineString)) in Hp'.
    rewrite <- list_lookup_fmap in Hp'.
    by rewrite (list_lookup_total_correct _ _ _ Hp').
  - intros h pool s0 s1 R S0 Hr o Ho.
    by destruct (Hwf _ _ _ _ R S0 Hr) as [_ _ _ Hp]; apply Hp.
Qed.

(** C4: a match at the tail appends the candidate to the chain and
    reverses its coordinates exactly when the matched end point is its
    end; a match at the head (no tail match within tolerance) puts the
    candidate first in the chain and reverses its coordinates exactly
    when the matched end point is its start.  No other object
    changes. *)
Theorem match_orientation tolerance flag s start end_ :
  (forall o, o ∈ src_segments s -> o < length (heap s)) ->
  head (coords (heap s !!! seg s)) = Some start ->
  last (coords (heap s !!! seg s)) = Some end_ ->
  (forall c loc d,
     find_closest (heap s) end_ (src_segments s) flag
       = Ok (Some c, Some loc, d) ->
     (d < tolerance)%Q ->
     exists s',
       loop_body tolerance flag s = Ok (Continue s') /\
       segments_in_order s' = segments_in_order s ++ [c] /\
       coords (heap s' !!! c) =
         match loc with
         | LEnd => rev (coords (heap s !!! c))
         | LStart => coords (heap s !!! c)
         end /\
       forall o, o <> c -> heap s' !!! o = heap s !!! o) /\
  (forall ct lt dt c loc d,
     find_closest (heap s) end_ (src_segments s) flag = Ok (ct, lt, dt) ->
     ct = None \/ (tolerance <= dt)%Q ->
     find_closest (heap s) start (src_segments s) flag
       = Ok (Some c, Some loc, d) ->
     (d < tolerance)%Q ->
     exists s',
       loop_body tolerance flag s = Ok (Continue s') /\
       segments_in_order s' = c :: segments_in_order s /\
       coords (heap s' !!! c) =
         match loc with
         | LStart => rev (coords (heap s !!! c))
         | LEnd => coords (heap s !!! c)
         end /\
       forall o, o <> c -> heap s' !!! o = heap s !!! o).
Proof.
  intros Hvalid Hs He.
  assert (forall point c l d,
    find_closest (heap s) point (src_segments s) flag = Ok (Some c, l, d) ->
    c < length (heap s) /\
    exists pool', list_remove (heap s) c (src_segments s) = Ok pool')
    as Hcand.
  { intros point c l d Hf.
    destruct (src_segments s) as [|o pool] eqn:E; [done|].
    apply find_closest_spec in Hf as (_ & c' & p1 & p2 & [= <-] & Hp & _);
      [|done].
    assert (c ∈ o :: pool) as Hin
      by (rewrite Hp; apply elem_of_app; right; by left).
    split; [by apply Hvalid|].
    destruct (list_remove_length (heap s) c _ Hin) as (pool' & Hr & _).
    eauto. }
  split.
  - intros c loc d Hf Hd.
    destruct (Hcand _ _ _ _ Hf) as (Hlt & pool' & Hr).
    exists (joined s true c (Some loc) pool').
    split; [by eapply loop_body_tail|]. split; [done|]. split.
    + destruct loc; simpl; [done | by apply flip_same].
    + intros o Hne. by apply joined_heap_other.
  - intros ct lt dt c loc d Hft Hno Hf Hd.
    destruct (Hcand _ _ _ _ Hf) as (Hlt & pool' & Hr).
    exists (joined s false c (Some loc) pool').
    split; [eapply loop_body_head; eauto; by apply within_None|].
    split; [done|]. split.
    + destruct loc; simpl; [by apply flip_same | done].
    + intros o Hne. by apply joined_heap_other.
Qed.

Lemma find_closest_single h point flag o s e :
  head (coords (h !!! o)) = Some s ->
  last (coords (h !!! o)) = Some e ->
  exists loc d,
    find_closest h point [o] flag = Ok (Some o, Some loc, d) /\
    (d <= measure flag point s)%Q /\ (d <= measure flag point e)%Q /\
    (d = measure flag point s \/ d = measure flag point e).
Proof.
  intros Hs He. unfold find_closest.
  rewrite (find_closest_loop_cons _ _ _ _ _ _ _ _ s e Hs He).
  unfold visit. simpl.
  destruct (Qltb (measure flag point e) (measure flag point s)) eqn:E;
    [apply Qltb_lt in E | apply Qltb_ge in E];
    do 2 eexists; (split; [reflexivity|]);
    repeat split; try lra; auto.
Qed.

(** C3: two polylines whose nearest end points are at distance [d] are
    joined when [d < tolerance] and are not joined when
    [tolerance <= d], so not at [d == tolerance]. *)
Theorem tolerance_boundary a b sa ea sb eb tolerance flag combine :
  head a = Some sa -> last a = Some ea ->
  head b = Some sb -> last b = Some eb ->
  exists out s,
    join_em [Some a; Some b] tolerance flag combine = Some (Ok (out, s)) /\
    ((nearest_endpoints flag sa ea sb eb < tolerance)%Q ->
     src_segments s = [] /\
     (segments_in_order s = [1; 0] \/ segments_in_order s = [0; 1])) /\
    ((tolerance <= nearest_endpoints flag sa ea sb eb)%Q ->
     src_segments s = [0] /\ segments_in_order s = [1]).
Proof.
  intros Hsa Hea Hsb Heb.
  set (h := [mkLineString a; mkLineString b]).
  set (s0 := mkState h [0] [1] 1).
  destruct (find_closest_single h eb flag 0 sa ea Hsa Hea)
    as (lt & dt & Hft & Hts & Hte & Htc).
  destruct (find_closest_single h sb flag 0 sa ea Hsa Hea)
    as (lh & dh & Hfh & Hhs & Hhe & Hhc).
  assert (list_remove h 0 [0] = Ok []) as Hr by done.
  unfold nearest_endpoints.
  assert (forall r, loop_body tolerance flag s0 = Ok r ->
    join_em [Some a; Some b] tolerance flag combine =
    Some (Ok (write_output combine
                match r with Continue s' | Break s' => s' end,
              match r with Continue s' | Break s' => s' end)) \/
    exists s', r = Continue s' /\ src_segments s' <> []) as Hrun.
  { intros r Hb. unfold join_em. simpl. fold h. fold s0. rewrite Hb.
    destruct r as [s'|s']; [|by left].
    destruct (src_segments s') eqn:E; [|right; exists s'; by rewrite E].
    by left. }
  destruct (Qlt_le_dec dt tolerance) as [Ht|Ht].
  - pose proof (loop_body_tail tolerance flag s0 sb eb 0 (Some lt) dt []
                  Hsb Heb Hft Ht Hr) as Hb.
    destruct (Hrun _ Hb) as [Hj | (s' & [= <-] & Hne)]; [|done].
    do 2 eexists. split; [exact Hj|]. split.
    + intros _. split; [done | by left].
    + intros Hd. apply Q.min_glb_iff in Hd as [Hd _].
      apply Q.min_glb_iff in Hd as [? ?]. destruct Htc as [-> | ->]; lra.
  - assert (within (Some 0) dt tolerance = None) as Hw
      by (apply within_None; by right).
    destruct (Qlt_le_dec dh tolerance) as [Hh|Hh].
    + pose proof (loop_body_head tolerance flag s0 sb eb _ _ _ 0 (Some lh)
                    dh [] Hsb Heb Hft Hw Hfh Hh Hr) as Hb.
      destruct (Hrun _ Hb) as [Hj | (s' & [= <-] & Hne)]; [|done].
      do 2 eexists. split; [exact Hj|]. split.
      * intros _. split; [done | by right].
      * intros Hd. apply Q.min_glb_iff in Hd as [_ Hd].
        apply Q.min_glb_iff in Hd as [? ?]. destruct Hhc as [-> | ->]; lra.
    + assert (within (Some 0) dh tolerance = None) as Hw'
        by (apply within_None; by right).
      pose proof (loop_body_break tolerance flag s0 sb eb _ _ _ _ _ _
                    Hsb Heb Hft Hw Hfh Hw') as Hb.
      destruct (Hrun _ Hb) as [Hj | (s' & [= ] & _)].
      do 2 eexists. split; [exact Hj|]. split.
      * intros Hd. apply Q.min_lt_iff in Hd as [Hd|Hd];
          apply Q.min_lt_iff in Hd as [Hd|Hd]; lra.
      * intros _. done.
Qed.

(** ** Further properties of [join_em] and [find_closest] *)

(** X1: a source without any geometry (no feature, or only features whose
    geometry is null) makes [join_em] raise [IndexError], from the [pop]
    on the empty list, whatever the other arguments. *)
Theorem join_em_empty_source source tolerance flag combine :
  omap id source = [] ->
  join_em source tolerance flag combine = Some (Raise IndexError).
Proof. intros H. unfold join_em, read_source. by rewrite H. Qed.

Lemma while_loop_final tolerance flag fuel s s' k :
  while_loop tolerance flag fuel s = Some (Ok (s', k)) ->
  src_segments s' = [] \/ loop_body tolerance flag s' = Ok (Break s').
Proof.
  revert s k. induction fuel as [|fuel IH]; intros s k; simpl.
  - destruct (src_segments s) eqn:E; [|done]. intros [= <- _]. by left.
  - destruct (src_segments s) as [|o pool] eqn:E.
    { intros [= <- _]. by left. }
    destruct (loop_body tolerance flag s) as [[s1|s1]|e] eqn:B; [| |done].
    + destruct (while_loop tolerance flag fuel s1) as [[[s2 k2]|e]|] eqn:W;
        [|done|done].
      intros [= <- _]. eauto.
    + intros [= <- _]. apply loop_body_Break in B as Hs. subst s1. by right.
Qed.

Lemma join_em_final source tolerance flag combine out s :
  join_em source tolerance flag combine = Some (Ok (out, s)) ->
  src_segments s = [] \/ loop_body tolerance flag s = Ok (Break s).
Proof.
  unfold join_em. destruct (read_source source) as [h pool].
  destruct (seed h pool) as [s0|e]; [|done].
  destruct (while_loop _ _ _ s0) as [[[s' k]|e]|] eqn:W; [|done|done].
  intros [= _ <-]. by eapply while_loop_final.
Qed.

(** X6: when [join_em] stops with polylines left over, every end point of
    every leftover is at a distance of at least the tolerance from the
    end and from the start of [seg], the polyline joined last. *)
Theorem leftovers_out_of_reach source tolerance flag combine out s :
  join_em source tolerance flag combine = Some (Ok (out, s)) ->
  src_segments s <> [] ->
  exists start end_,
    head (coords (heap s !!! seg s)) = Some start /\
    last (coords (heap s !!! seg s)) = Some end_ /\
    forall o loc p,
      o ∈ src_segments s -> endpoint (heap s !!! o) loc = Some p ->
      (tolerance <= measure flag end_ p)%Q /\
      (tolerance <= measure flag start p)%Q.
Proof.
  intros H Hne. apply join_em_final in H as [H|H]; [done|].
  apply loop_body_inv in H
    as (start & end_ & ct & lt & dt & Hs & He & Hft & H).
  exists start, end_. split; [done|]. split; [done|].
  destruct H as [(c & pool' & _ & _ & _ & H) | (Hwt & ch & lh & dh & Hfh & H)];
    [done|].
  destruct H as [(c & pool' & _ & _ & _ & H) | (Hwh & _)]; [done|].
  pose proof (find_closest_spec _ _ _ _ _ _ _ Hne Hft)
    as (Hmt & ct' & _ & _ & -> & _).
  pose proof (find_closest_spec _ _ _ _ _ _ _ Hne Hfh)
    as (Hmh & ch' & _ & _ & -> & _).
  apply within_None in Hwt as [?|Hwt]; [done|].
  apply within_None in Hwh as [?|Hwh]; [done|].
  intros o loc p Ho Hp.
  specialize (Hmt o loc p Ho Hp). specialize (Hmh o loc p Ho Hp).
  split; lra.
Qed.

Lemma write_output_concat s :
  write_output true s = [concat (write_output false s)].
Proof. unfold write_output, all_coords. by rewrite all_coords_fold. Qed.


(** X3: the [combine] flag has no influence on the assembly: both modes
    end in the same state; the separate mode writes one record per chain
    polyline, and the single record of the combine mode is the
    concatenation of those records. *)
Theorem combine_is_concat_of_separate source tolerance flag outs s :
  join_em source tolerance flag false = Some (Ok (outs, s)) ->
  join_em source tolerance flag true = Some (Ok ([concat outs], s)) /\
  length outs = length (segments_in_order s) /\
  forall i o, segments_in_order s !! i = Some o ->
              outs !! i = Some (coords (heap s !!! o)).
Proof.
  unfold join_em. destruct (read_source source) as [h pool].
  destruct (seed h pool) as [s0|e]; [|done].
  destruct (while_loop _ _ _ s0) as [[[s' k]|e]|]; [|done|done].
  intros [= <- <-]. split; [by rewrite write_output_concat|].
  unfold write_output. split; [by rewrite length_fmap|].
  intros i o Hi. by rewrite list_lookup_fmap, Hi.
Qed.

Lemma visit_end flag point o s e cs cl cd cs' cd' :
  visit flag point o s e (cs, cl, cd) = (cs', Some LEnd, cd') ->
  (cs' = cs /\ cl = Some LEnd /\ cd' = cd) \/
  (cs' = Some o /\ (cd' < measure flag point s)%Q).
Proof.
  unfold visit.
  destruct (bool_decide (cs = None)) eqn:E0;
    [apply bool_decide_eq_true in E0 | apply bool_decide_eq_false in E0];
    destruct (Qltb (measure flag point s) cd) eqn:E1;
    [apply Qltb_lt in E1 | apply Qltb_ge in E1
    |apply Qltb_lt in E1 | apply Qltb_ge in E1]; simpl;
    destruct (Qltb (measure flag point e) _) eqn:E2;
    (apply Qltb_lt in E2 || apply Qltb_ge in E2);
    intros H; simplify_eq;
    first [ left; done | right; split; [done | lra] ].
Qed.

Lemma find_closest_loop_end h point flag pool cs cd cl r d :
  find_closest_loop h point flag pool cs cd cl = Ok (r, Some LEnd, d) ->
  (r = cs /\ cl = Some LEnd /\ d = cd) \/
  (exists c s, r = Some c /\ head (coords (h !!! c)) = Some s /\
               (d < measure flag point s)%Q).
Proof.
  revert cs cd cl. induction pool as [|o pool IH]; intros cs cd cl H.
  - simpl in H. injection H as <- <- <-. by left.
  - destruct (find_closest_loop_cons_Ok _ _ _ _ _ _ _ _ _ H)
      as (s & e & Hs & He).
    rewrite (find_closest_loop_cons _ _ _ _ _ _ _ _ s e Hs He) in H.
    destruct (visit flag point o s e (cs, cl, cd)) as [[cs' cl'] cd'] eqn:V.
    apply IH in H as [(-> & -> & ->) | H]; [|by right].
    apply visit_end in V as [(-> & -> & ->) | (-> & Hlt)]; [by left|].
    right. eauto.
Qed.

(** X8: ties are broken by position.  The candidate [find_closest]
    returns is the first segment of the pool that has an end point at the
    minimum distance: every segment before it has both end points
    strictly farther, and when the end point returned is the end of the
    segment, its start is strictly farther too. *)
Theorem find_closest_first_wins h point flag pool r l d :
  pool <> [] ->
  find_closest h point pool flag = Ok (r, l, d) ->
  exists c loc p p1 p2,
    r = Some c /\ l = Some loc /\ pool = p1 ++ c :: p2 /\ (c ∉ p1) /\
    endpoint (h !!! c) loc = Some p /\ d = measure flag point p /\
    (forall o loc' p', o ∈ p1 -> endpoint (h !!! o) loc' = Some p' ->
                       (d < measure flag point p')%Q) /\
    (loc = LEnd ->
     exists s, head (coords (h !!! c)) = Some s /\
               (d < measure flag point s)%Q).
Proof.
  intros Hpool H.
  destruct (find_closest_spec _ _ _ _ _ _ _ Hpool H)
    as (_ & c & p1 & p2 & -> & -> & (loc & p & -> & Hp & -> & Hnin & Hfar)).
  exists c, loc, p, p1, p2. repeat (split; [done|]).
  intros ->. apply find_closest_loop_end in H as [(? & ? & _) | H]; [done|].
  destruct H as (c' & s & [= <-] & Hs & Hlt). eauto.
Qed.


Lemma find_closest_loop_Ok_coords h point flag pool cs cd cl r :
  find_closest_loop h point flag pool cs cd cl = Ok r ->
  forall o, o ∈ pool -> coords (h !!! o) <> [].
Proof.
  revert cs cd cl. induction pool as [|o pool IH]; intros cs cd cl H o' Hin.
  - by apply elem_of_nil in Hin.
  - destruct (find_closest_loop_cons_Ok _ _ _ _ _ _ _ _ _ H)
      as (s & e & Hs & He).
    rewrite (find_closest_loop_cons _ _ _ _ _ _ _ _ s e Hs He) in H.
    destruct (visit flag point o s e (cs, cl, cd)) as [[cs' cl'] cd'].
    apply elem_of_cons in Hin as [->|Hin]; [|by eapply IH].
    intros E. by rewrite E in Hs.
Qed.

(** X9: the distance [find_closest] returns does not depend on the order
    of the pool: on a reordered pool it succeeds as well and returns an
    equal distance (the candidate may differ, on ties). *)
Theorem find_closest_distance_order_independent
    h point flag pool pool' r l d :
  pool ≡ₚ pool' ->
  find_closest h point pool flag = Ok (r, l, d) ->
  exists r' l' d',
    find_closest h point pool' flag = Ok (r', l', d') /\ (d == d')%Q.
Proof.
  intros Hperm H.
  destruct (find_closest_loop_total h point flag pool' None 0%Q None)
    as ([[r' l'] d'] & H').
  { intros o Ho. eapply find_closest_loop_Ok_coords; [exact H|].
    by rewrite Hperm. }
  fold (find_closest h point pool' flag) in H'.
  exists r', l', d'. split; [done|].
  destruct pool as [|o pool].
  - apply Permutation_nil_l in Hperm. subst pool'.
    injection H as <- <- <-. injection H' as <- <- <-. reflexivity.
  - assert (pool' <> []) as Hne'.
    { intros ->. apply Permutation_nil_r in Hperm. done. }
    destruct (find_closest_spec h point flag (o :: pool) _ _ _ ltac:(done) H)
      as (Hmin & c & p1 & p2 & _ & Hp & (loc & p & _ & Hep & -> & _)).
    destruct (find_closest_spec _ _ _ _ _ _ _ Hne' H')
      as (Hmin' & c' & q1 & q2 & _ & Hq & (loc' & q & _ & Heq & -> & _)).
    apply Qle_antisym.
    + apply (Hmin c' loc' q); [|done]. rewrite Hperm, Hq.
      apply elem_of_app. right. by left.
    + apply (Hmin' c loc p); [|done]. rewrite <- Hperm, Hp.
      apply elem_of_app. right. by left.
Qed.

Lemma head_rev {A} (l : list A) : head (rev l) = last l.
Proof. rewrite rev_alt. apply head_reverse. Qed.

Lemma last_rev {A} (l : list A) : last (rev l) = head l.
Proof. rewrite rev_alt. apply last_reverse. Qed.

(** X7: a join brings the matched end point to the join.  After a match
    at the tail the new polyline is appended and (after the reversal, if
    any) starts within the tolerance of the end of the previous [seg];
    after a match at the head it is put first and ends within the
    tolerance of the start of the previous [seg]. *)
Theorem join_faces_seg tolerance flag s s' :
  (forall o, o ∈ src_segments s -> o < length (heap s)) ->
  loop_body tolerance flag s = Ok (Continue s') ->
  (segments_in_order s' = segments_in_order s ++ [seg s'] /\
   exists end_ p,
     last (coords (heap s !!! seg s)) = Some end_ /\
     head (coords (heap s' !!! seg s')) = Some p /\
     (measure flag end_ p < tolerance)%Q) \/
  (segments_in_order s' = seg s' :: segments_in_order s /\
   exists start p,
     head (coords (heap s !!! seg s)) = Some start /\
     last (coords (heap s' !!! seg s')) = Some p /\
     (measure flag start p < tolerance)%Q).
Proof.
  intros Hvalid H. apply loop_body_inv in H
    as (start & end_ & ct & lt & dt & Hs & He & Hft & H).
  assert (forall point c l d,
    find_closest (heap s) point (src_segments s) flag = Ok (Some c, l, d) ->
    c < length (heap s) /\
    exists loc p, l = Some loc /\ endpoint (heap s !!! c) loc = Some p /\
                  d = measure flag point p) as Hcand.
  { intros point c l d Hf.
    destruct (src_segments s) as [|o pool] eqn:E; [done|].
    apply find_closest_spec in Hf
      as (_ & c' & p1 & p2 & [= <-] & Hp & (loc & p & -> & Hep & -> & _));
      [|done].
    split; [|eauto].
    apply Hvalid. rewrite Hp. apply elem_of_app. right. by left. }
  destruct H as [(c & pool' & -> & Hd & _ & [= ->])
                | (_ & ch & lh & dh & Hfh & H)].
  - left. split; [done|]. exists end_.
    destruct (Hcand _ _ _ _ Hft) as (Hlt & loc & p & -> & Hp & ->).
    exists p. split; [done|]. split; [|done].
    destruct loc; simpl in *; [done|].
    by rewrite flip_same, head_rev.
  - destruct H as [(c & pool' & -> & Hd & _ & [= ->]) | (_ & H)]; [|done].
    right. split; [done|]. exists start.
    destruct (Hcand _ _ _ _ Hfh) as (Hlt & loc & p & -> & Hp & ->).
    exists p. split; [done|]. split; [|done].
    destruct loc; simpl in *; [|done].
    by rewrite flip_same, last_rev.
Qed.


Lemma find_closest_candidate_in_pool h point flag pool c l d :
  find_closest h point pool flag = Ok (Some c, l, d) ->
  c ∈ pool /\
  exists loc p, l = Some loc /\ endpoint (h !!! c) loc = Some p /\
                d = measure flag point p.
Proof.
  intros Hf. destruct pool as [|o pool]; [done|].
  apply find_closest_spec in Hf
    as (_ & c' & p1 & p2 & [= <-] & -> & (loc & p & -> & Hep & -> & _));
    [|done].
  split; [|eauto]. apply elem_of_app. right. by left.
Qed.

Lemma list_remove_subset h c l l' :
  list_remove h c l = Ok l' -> forall o, o ∈ l' -> o ∈ l.
Proof.
  revert l'. induction l as [|o l IH]; intros l'; simpl; [done|].
  destruct (bool_decide (o = c) || geom_eq _ _).
  - intros [= ->] o' Ho'. by right.
  - intros H. apply bind_Ok in H as (l'' & Hl & [= <-]).
    intros o' Ho'. apply elem_of_cons in Ho' as [->|Ho']; [by left|].
    right. by eapply IH.
Qed.

Lemma flip_nonempty (h : Heap) (o : nat) :
  Forall (fun ls => coords ls <> []) h ->
  Forall (fun ls => coords ls <> []) (flip h o).
Proof.
  intros Hh. unfold flip. destruct (decide (o < length h)) as [Hlt|Hge].
  - apply Forall_insert; [done|]. simpl.
    pose proof (Forall_lookup_total_1 _ _ _ Hh Hlt) as Hne. simpl in Hne.
    intros E. apply Hne. apply (f_equal (@rev Point)) in E.
    by rewrite rev_involutive in E.
  - rewrite list_insert_ge by lia. done.
Qed.

Lemma joined_valid s at_tail c loc pool' :
  valid s -> c ∈ src_segments s ->
  (forall o, o ∈ pool' -> o ∈ src_segments s) ->
  valid (joined s at_tail c loc pool').
Proof.
  intros (Hh & Hseg & Hpool) Hc Hsub.
  rewrite Forall_forall in Hpool.
  assert (Forall (fun ls => coords ls <> [])
            (heap (joined s at_tail c loc pool'))) as Hh'.
  { destruct at_tail; simpl; case_bool_decide;
      try done; by apply flip_nonempty. }
  split; [done|]. rewrite joined_heap_length. split.
  - destruct at_tail; simpl; by apply Hpool.
  - rewrite joined_src_segments. apply Forall_forall. intros o Ho.
    apply Hpool. by apply Hsub.
Qed.

(** On a valid state the loop body raises no exception, and the state it
    continues with is valid. *)
Lemma loop_body_valid tolerance flag s :
  valid s ->
  exists r, loop_body tolerance flag s = Ok r /\
            forall s', r = Continue s' -> valid s'.
Proof.
  intros Hv. pose proof Hv as (Hh & Hseg & Hpool).
  rewrite Forall_forall in Hpool.
  assert (forall o, o ∈ src_segments s -> coords (heap s !!! o) <> [])
    as Hne by (intros o Ho; by apply (Forall_lookup_total_1 _ _ _ Hh), Hpool).
  pose proof (Forall_lookup_total_1 _ _ _ Hh Hseg) as Hsegne.
  simpl in Hsegne.
  destruct (nonempty_head _ Hsegne) as [start Hs].
  destruct (nonempty_last _ Hsegne) as [end_ He].
  destruct (find_closest_loop_total (heap s) end_ flag (src_segments s)
              None 0%Q None Hne) as ([[ct lt] dt] & Hft).
  fold (find_closest (heap s) end_ (src_segments s) flag) in Hft.
  destruct (find_closest_loop_total (heap s) start flag (src_segments s)
              None 0%Q None Hne) as ([[ch lh] dh] & Hfh).
  fold (find_closest (heap s) start (src_segments s) flag) in Hfh.
  destruct (within ct dt tolerance) as [c|] eqn:Wt.
  - apply within_Some in Wt as [-> Hd].
    destruct (find_closest_candidate_in_pool _ _ _ _ _ _ _ Hft) as [Hc _].
    destruct (list_remove_length (heap s) c _ Hc) as (pool' & Hr & _).
    eexists. split; [by eapply loop_body_tail|].
    intros s' [= <-]. apply (joined_valid s true c lt pool'); [done | done |].
    by eapply list_remove_subset.
  - destruct (within ch dh tolerance) as [c|] eqn:Wh.
    + apply within_Some in Wh as [-> Hd].
      destruct (find_closest_candidate_in_pool _ _ _ _ _ _ _ Hfh) as [Hc _].
      destruct (list_remove_length (heap s) c _ Hc) as (pool' & Hr & _).
      eexists. split; [by eapply loop_body_head|].
      intros s' [= <-].
      apply (joined_valid s false c lh pool'); [done | done |].
      by eapply list_remove_subset.
    + eexists. split; [by eapply loop_body_break|]. done.
Qed.

Lemma while_loop_valid tolerance flag fuel s :
  valid s -> length (src_segments s) <= fuel ->
  exists s' k, while_loop tolerance flag fuel s = Some (Ok (s', k)).
Proof.
  revert s. induction fuel as [|fuel IH]; intros s Hv Hlen; simpl.
  - destruct (src_segments s); [eauto | simpl in Hlen; lia].
  - destruct (src_segments s) as [|o pool] eqn:E; [eauto|].
    destruct (loop_body_valid tolerance flag s Hv) as (r & Hb & Hr).
    rewrite Hb. destruct r as [s1|s1]; [|eauto].
    apply loop_body_Continue_count in Hb as [Hb _]. rewrite E in Hb.
    destruct (IH s1) as (s2 & k & ->);
      [by apply Hr | simpl in *; lia | eauto].
Qed.


Lemma seed_valid source h pool s0 :
  read_source source = (h, pool) -> seed h pool = Ok s0 ->
  Forall (fun p => p <> []) (omap id source) ->
  valid s0.
Proof.
  intros R S0 Hne. apply read_source_pool in R as [-> ->].
  apply seed_Ok in S0 as (o & Hp & ->). simpl.
  set (n := length (mkLineString <$> omap id source)) in *.
  assert (forall o', o' ∈ src_segments s0 ++ [o] -> o' < n) as Hlt.
  { intros o'. rewrite <- Hp, elem_of_seq. lia. }
  split; [|split].
  - apply Forall_fmap. eapply Forall_impl; [exact Hne|]. done.
  - apply Hlt. apply elem_of_app. right. by left.
  - apply Forall_forall. intros o' Ho'. apply Hlt.
    apply elem_of_app. by left.
Qed.

(** X2: when the source has at least one geometry and every geometry has
    at least one coordinate, [join_em] raises no exception: it ends with
    a chain, leftovers and the records written. *)
Theorem join_em_no_exception source tolerance flag combine :
  omap id source <> [] ->
  Forall (fun p => p <> []) (omap id source) ->
  exists out s, join_em source tolerance flag combine = Some (Ok (out, s)).
Proof.
  intros Hsrc Hne. unfold join_em.
  destruct (read_source source) as [h pool] eqn:R.
  assert (pool <> []) as Hpool.
  { apply read_source_pool in R as [-> ->]. rewrite length_fmap.
    destruct (omap id source); [done|]. done. }
  destruct (seed_nonempty h pool Hpool) as [s0 S0]. rewrite S0.
  pose proof (seed_valid _ _ _ _ R S0 Hne) as Hv.
  destruct (while_loop_valid tolerance flag (length (src_segments s0)) s0 Hv)
    as (s & k & ->); [done|].
  eauto.
Qed.

(** In every state of the loop [seg] is the polyline at the end of the
    chain that was extended last. *)
Lemma reachable_seg tolerance flag s0 s :
  segments_in_order s0 = [seg s0] ->
  reachable tolerance flag s0 s ->
  last (segments_in_order s) = Some (seg s) \/
  head (segments_in_order s) = Some (seg s).
Proof.
  intros H0 Hr. destruct Hr as [|s s' _ _ Hb].
  - rewrite H0. by left.
  - by eapply loop_body_seg.
Qed.

(** X10: in every state of the loop [seg] is the last or the first
    polyline of the chain, so at least one of the two query points of the
    loop body is the end of the chain it is meant to extend: the tail
    query point is the end of the last polyline of the chain, or the head
    query point is the start of its first polyline. *)
Theorem one_query_point_at_chain_end source tolerance flag h pool s0 s :
  read_source source = (h, pool) ->
  seed h pool = Ok s0 ->
  reachable tolerance flag s0 s ->
  (last (segments_in_order s) = Some (seg s) /\
   forall p, tail_query_point s = Ok p <-> chain_tail_point s = Some p) \/
  (head (segments_in_order s) = Some (seg s) /\
   forall p, head_query_point s = Ok p <-> chain_head_point s = Some p).
Proof.
  intros R S0 Hr. apply seed_Ok in S0 as (o & _ & Hs0).
  destruct (reachable_seg tolerance flag s0 s) as [H|H];
    [by rewrite Hs0 | done | left | right]; (split; [done|]); intros p.
  - unfold tail_query_point, chain_tail_point. rewrite H. simpl.
    apply index_last_Ok.
  - unfold head_query_point, chain_head_point. rewrite H. simpl.
    apply index_first_Ok.
Qed.

Lemma loop_body_nonpositive tolerance flag s s' :
  (tolerance <= 0)%Q ->
  (forall p q, 0 <= measure flag p q)%Q ->
  loop_body tolerance flag s <> Ok (Continue s').
Proof.
  intros Htol Hpos H. apply loop_body_inv in H
    as (start & end_ & ct & lt & dt & _ & _ & Hft & H).
  destruct H as [(c & pool' & -> & Hd & _) | (_ & ch & lh & dh & Hfh & H)].
  - apply find_closest_candidate_in_pool in Hft
      as (_ & loc & p & _ & _ & ->).
    specialize (Hpos end_ p). lra.
  - destruct H as [(c & pool' & -> & Hd & _) | (_ & H)]; [|done].
    apply find_closest_candidate_in_pool in Hfh
      as (_ & loc & p & _ & _ & ->).
    specialize (Hpos start p). lra.
Qed.

(** X11: with a tolerance that is not positive (and a metric that is not
    negative) nothing is ever joined, not even polylines that touch: the
    chain is the seed, the last geometry of the source, alone; all other
    geometries are left over, in source order, and no object is
    changed. *)
Theorem nonpositive_tolerance_joins_nothing
    source tolerance flag combine out s :
  (tolerance <= 0)%Q ->
  (forall p q, 0 <= measure flag p q)%Q ->
  join_em source tolerance flag combine = Some (Ok (out, s)) ->
  segments_in_order s = [seg s] /\
  src_segments s ++ [seg s] = seq 0 (length (omap id source)) /\
  heap s = mkLineString <$> omap id source.
Proof.
  intros Htol Hpos H.
  apply join_em_Ok in H as (h & pool & s0 & R & S0 & Hr & _).
  assert (s = s0) as ->.
  { destruct Hr as [|s1 s2 _ _ Hb]; [done|].
    by apply loop_body_nonpositive in Hb. }
  apply read_source_pool in R as [-> ->].
  apply seed_Ok in S0 as (o & Hp & ->). simpl in *.
  rewrite length_fmap in Hp. done.
Qed.


(** *** Nothing is lost *)

Lemma concat_fmap_Permutation_ext {A B} (f g : A -> list B) (l : list A) :
  (forall a, a ∈ l -> f a ≡ₚ g a) ->
  concat (f <$> l) ≡ₚ concat (g <$> l).
Proof.
  induction l as [|a l IH]; intros H; csimpl; [done|].
  rewrite (H a) by (by left). rewrite IH; [done|].
  intros b Hb. apply H. by right.
Qed.

Lemma concat_Permutation {A} (ls ks : list (list A)) :
  ls ≡ₚ ks -> concat ls ≡ₚ concat ks.
Proof.
  induction 1 as [|a ls ks _ IH|a b ls|ls ks ms _ IH1 _ IH2]; simpl.
  - done.
  - by rewrite IH.
  - rewrite !app_assoc. by rewrite (Permutation_app_comm b a).
  - by rewrite IH1.
Qed.

Lemma fmap_lookup_total_seq (l : list LineString) :
  (fun o => l !!! o) <$> seq 0 (length l) = l.
Proof.
  induction l as [|a l IH]; [done|].
  simpl length. rewrite <- cons_seq. csimpl.
  rewrite <- fmap_S_seq, <- list_fmap_compose. simpl. f_equal.
  rewrite <- IH at 2. done.
Qed.

Lemma coords_of_source (geoms : list (list Point)) :
  (fun o => coords ((mkLineString <$> geoms) !!! o))
    <$> seq 0 (length geoms) = geoms.
Proof.
  rewrite <- (length_fmap mkLineString).
  change (fun o => coords ((mkLineString <$> geoms) !!! o))
    with (coords ∘ (fun o => (mkLineString <$> geoms) !!! o)).
  rewrite list_fmap_compose, fmap_lookup_total_seq, <- list_fmap_compose.
  induction geoms as [|g geoms IH]; csimpl; [done|]. by rewrite IH.
Qed.

Section Conservation.

Hypothesis geom_eq_sound : forall a b, geom_eq a b = true -> a = b.

Lemma reachable_perm tolerance flag s0 s :
  reachable tolerance flag s0 s ->
  src_segments s ++ segments_in_order s ≡ₚ
  src_segments s0 ++ segments_in_order s0.
Proof using geom_eq_sound.
  induction 1 as [|s s' _ IH _ Hb]; [done|].
  apply (loop_body_moves geom_eq_sound) in Hb
    as (at_tail & c & loc & p1 & p2 & E & ->).
  rewrite <- IH, joined_src_segments, joined_chain_perm, E.
  rewrite <- !app_assoc. simpl.
  by rewrite <- !Permutation_middle.
Qed.

(** A polyline of the chain has the coordinates it was read with, in the
    same or in the reverse order. *)
Lemma oriented_step h0 tolerance flag s s' :
  wf h0 s ->
  (forall o, o ∈ segments_in_order s ->
     coords (heap s !!! o) = coords (h0 !!! o) \/
     coords (heap s !!! o) = rev (coords (h0 !!! o))) ->
  loop_body tolerance flag s = Ok (Continue s') ->
  forall o, o ∈ segments_in_order s' ->
    coords (heap s' !!! o) = coords (h0 !!! o) \/
    coords (heap s' !!! o) = rev (coords (h0 !!! o)).
Proof using geom_eq_sound.
  intros [Hlen Hnd Hb Hp] Hor H.
  apply (loop_body_moves geom_eq_sound) in H
    as (at_tail & c & loc & p1 & p2 & E & ->).
  assert (c ∈ src_segments s) as Hc
    by (rewrite E; apply elem_of_app; right; by left).
  assert (c < length (heap s)) as Hlt
    by (rewrite Hlen; apply Hb, elem_of_app; by left).
  intros o Ho. rewrite joined_chain_perm in Ho.
  apply elem_of_cons in Ho as [->|Ho].
  - rewrite <- (Hp c Hc).
    destruct at_tail; simpl; case_bool_decide; auto;
      right; by apply flip_same.
  - assert (o <> c) as Hne.
    { intros ->. apply NoDup_app in Hnd as (_ & Hnd & _).
      by apply (Hnd c). }
    rewrite joined_heap_other by done. by apply Hor.
Qed.

Lemma reachable_oriented source tolerance flag h pool s0 s :
  read_source source = (h, pool) -> seed h pool = Ok s0 ->
  reachable tolerance flag s0 s ->
  wf h s /\
  forall o, o ∈ segments_in_order s ->
    coords (heap s !!! o) = coords (h !!! o) \/
    coords (heap s !!! o) = rev (coords (h !!! o)).
Proof using geom_eq_sound.
  intros R S0 Hr. induction Hr as [|s s' _ [IHwf IHor] _ Hb].
  - split; [by eapply wf_seed|].
    apply seed_Ok in S0 as (o & _ & ->). simpl. auto.
  - split; [by eapply (wf_step geom_eq_sound) | by eapply oriented_step].
Qed.

Lemma source_lookup source o :
  o < length (omap id source) ->
  exists p, omap id source !! o = Some p /\
            coords ((mkLineString <$> omap id source) !!! o) = p.
Proof.
  intros Hlt. apply lookup_lt_is_Some in Hlt as [p Hp].
  exists p. split; [done|].
  apply (f_equal (fmap mkLineString)) in Hp.
  rewrite <- list_lookup_fmap in Hp.
  by rewrite (list_lookup_total_correct _ _ _ Hp).
Qed.

(** X4: (when geometries that compare equal have equal coordinates) a
    polyline of the final chain is a geometry of the source with its
    coordinates in the order read or in the reverse order, nothing else;
    so is every record written in the separate mode. *)
Theorem chain_polylines_from_source source tolerance flag combine out s :
  join_em source tolerance flag combine = Some (Ok (out, s)) ->
  (forall o, o ∈ segments_in_order s ->
     exists p, omap id source !! o = Some p /\
               (coords (heap s !!! o) = p \/
                coords (heap s !!! o) = rev p)) /\
  (combine = false ->
   forall rec, rec ∈ out ->
     exists p, p ∈ omap id source /\ (rec = p \/ rec = rev p)).
Proof using geom_eq_sound.
  intros H. apply join_em_Ok in H as (h & pool & s0 & R & S0 & Hr & ->).
  destruct (reachable_oriented _ _ _ _ _ _ _ R S0 Hr) as [[_ _ Hb _] Hor].
  apply read_source_pool in R as [-> _].
  assert (forall o, o ∈ segments_in_order s ->
     exists p, omap id source !! o = Some p /\
               (coords (heap s !!! o) = p \/
                coords (heap s !!! o) = rev p)) as Hchain.
  { intros o Ho.
    destruct (source_lookup source o) as (p & Hp & Hc).
    { rewrite <- (length_fmap mkLineString). apply Hb.
      apply elem_of_app. by right. }
    exists p. split; [done|]. rewrite <- Hc. by apply Hor. }
  split; [done|]. intros -> rec Hrec. simpl in Hrec.
  apply list_elem_of_fmap in Hrec as (o & -> & Ho).
  destruct (Hchain o Ho) as (p & Hp & Hc).
  exists p. split; [by eapply list_elem_of_lookup_2 | done].
Qed.

Lemma reachable_partition source tolerance flag s :
  forall h pool s0,
    read_source source = (h, pool) -> seed h pool = Ok s0 ->
    reachable tolerance flag s0 s ->
    segments_in_order s ++ src_segments s ≡ₚ seq 0 (length (omap id source)).
Proof using geom_eq_sound.
  intros h pool s0 R S0 Hr. apply reachable_perm in Hr.
  apply read_source_pool in R as [-> ->].
  apply seed_Ok in S0 as (o & Hp & Hs0).
  rewrite Hs0 in Hr. simpl in Hr. rewrite <- Hp, length_fmap in Hr.
  by rewrite Permutation_app_comm.
Qed.

(** X5: (same assumption) when [join_em] stops, every geometry of the
    source is exactly once in the chain or among the leftovers: the two
    lists together are a permutation of the objects read, without
    repetition. *)
Theorem chain_and_leftovers_partition source tolerance flag combine out s :
  join_em source tolerance flag combine = Some (Ok (out, s)) ->
  segments_in_order s ++ src_segments s ≡ₚ
    seq 0 (length (omap id source)) /\
  NoDup (segments_in_order s ++ src_segments s).
Proof using geom_eq_sound.
  intros H. apply join_em_Ok in H as (h & pool & s0 & R & S0 & Hr & _).
  apply reachable_perm in Hr.
  apply read_source_pool in R as [-> ->].
  apply seed_Ok in S0 as (o & Hp & Hs0).
  rewrite Hs0 in Hr. simpl in Hr. rewrite <- Hp, length_fmap in Hr.
  assert (segments_in_order s ++ src_segments s ≡ₚ
          seq 0 (length (omap id source))) as Hperm
    by (by rewrite Permutation_app_comm).
  split; [done|]. rewrite Hperm. apply NoDup_seq.
Qed.

(** X12: (same assumption) no point is lost, added or repeated: the
    polyline written in the combine mode, followed by the coordinates of
    the leftovers, is a permutation of the coordinates of all geometries
    of the source; when nothing is left over the polyline written has
    exactly the points of the source. *)
Theorem combined_output_preserves_points source tolerance flag out s :
  join_em source tolerance flag true = Some (Ok (out, s)) ->
  exists rec,
    out = [rec] /\
    rec ++ concat ((fun o => coords (heap s !!! o)) <$> src_segments s)
      ≡ₚ concat (omap id source) /\
    (src_segments s = [] -> rec ≡ₚ concat (omap id source)).
Proof using geom_eq_sound.
  intros H.
  pose proof (reachable_partition source tolerance flag s)
    as Haux.
  apply join_em_Ok in H as (h & pool & s0 & R & S0 & Hr & ->).
  destruct (reachable_oriented _ _ _ _ _ _ _ R S0 Hr) as [[_ _ _ Hpl] Hor].
  specialize (Haux h pool s0 R S0 Hr).
  apply read_source_pool in R as [-> _].
  rewrite write_output_concat. eexists. split; [done|].
  assert (concat (write_output false s) ++
          concat ((fun o => coords (heap s !!! o)) <$> src_segments s)
          ≡ₚ concat (omap id source)) as Hall.
  { unfold write_output. rewrite <- concat_app, <- fmap_app.
    rewrite (concat_fmap_Permutation_ext _
               (fun o => coords ((mkLineString <$> omap id source) !!! o))).
    - rewrite (concat_Permutation _ _ (fmap_Permutation _ _ _ Haux)).
      by rewrite coords_of_source.
    - intros o Ho. apply elem_of_app in Ho as [Ho|Ho].
      + destruct (Hor o Ho) as [-> | ->]; [done|].
        by rewrite <- Permutation_rev.
      + by rewrite (Hpl o Ho). }
  split; [done|]. intros E. rewrite E in Hall. simpl in Hall.
  by rewrite app_nil_r in Hall.
Qed.

End Conservation.

End JoinEm.


(** ** The concrete parameters *)

(** On two points with the same [y] (or the same [x]) [line_distance] is
    the Euclidean distance: it is not negative and its square is the sum
    of the squared coordinate differences. *)
Lemma line_distance_euclidean (p q : Point) :
  (y p == y q \/ x p == x q)%Q ->
  (0 <= line_distance p q)%Q /\
  (line_distance p q * line_distance p q ==
   (x p - x q) * (x p - x q) + (y p - y q) * (y p - y q))%Q.
Proof.
  intros H. unfold line_distance.
  pattern (Qabs (x p - x q)); apply Qabs_case; intros Hx;
    pattern (Qabs (y p - y q)); apply Qabs_case; intros Hy;
    destruct H as [H|H]; split; try lra;
    assert (y p - y q == 0 \/ x p - x q == 0)%Q as [E|E]
      by ((left; lra) || (right; lra));
    rewrite E; ring_simplify; try rewrite E; try ring.
Qed.

Lemma coords_eq_sound (a b : LineString) : coords_eq a b = true -> a = b.
Proof. unfold coords_eq. apply bool_decide_eq_true. Qed.

(** ** The query points of the loop *)

(** C1: the loop queries with the end points of [seg], the polyline
    joined last, not with the two ends of the chain.  On [three_pieces]
    the middle piece is the seed and the right piece is appended; in the
    next iteration the head query starts from (1,0), the start of that
    right piece, while the chain starts at (0,0), where the left piece
    ends: the loop breaks and the left piece is left over.  On
    [doubled_piece] a piece is put first; the next tail query starts from
    its end (0,0), while the chain ends at (1,0): the second copy, at
    distance 1 from the end of the chain, is reversed and appended. *)
Theorem query_points_follow_seg :
  let body :=
    loop_body line_distance no_haversine coords_eq default_tolerance false in
  let h := mkLineString <$> omap id three_pieces in
  let s0 := mkState h [0; 1] [2] 2 in
  let s1 := mkState h [1] [2; 0] 0 in
  let h' := mkLineString <$> omap id doubled_piece in
  let t0 := mkState h' [0; 1] [2] 2 in
  let t1 := mkState h' [1] [0; 2] 0 in
  (seed h [0; 1; 2] = Ok s0 /\
   body s0 = Ok (Continue s1) /\
   head_query_point s1 = Ok (pt 1 0) /\
   chain_head_point s1 = Some (pt 0 0) /\
   find_closest line_distance no_haversine h (pt 0 0) [1] false
     = Ok (Some 1, Some LEnd, 0%Q) /\
   body s1 = Ok (Break s1) /\
   join_em line_distance no_haversine coords_eq three_pieces
     default_tolerance false false
     = Some (Ok ([[pt 0 0; pt 1 0]; [pt 1 0; pt 2 0]], s1))) /\
  (seed h' [0; 1; 2] = Ok t0 /\
   body t0 = Ok (Continue t1) /\
   tail_query_point t1 = Ok (pt 0 0) /\
   chain_tail_point t1 = Some (pt 1 0) /\
   find_closest line_distance no_haversine h' (pt 1 0) [1] false
     = Ok (Some 1, Some LEnd, 1%Q) /\
   exists t2,
     body t1 = Ok (Continue t2) /\
     segments_in_order t2 = [0; 2; 1] /\
     coords (heap t2 !!! 1) = [pt 0 0; pt (-1) 0]).
Proof.
  split.
  - repeat split; vm_compute; reflexivity.
  - do 5 (split; [vm_compute; reflexivity|]).
    eexists. split; [vm_compute; reflexivity|].
    split; vm_compute; reflexivity.
Qed.

(** ** The theorems at concrete inputs *)

Lemma find_closest_running_min_witness :
  exists c loc d,
    find_closest line_distance no_haversine
      (mkLineString <$> omap id three_pieces) (pt 0 0) [0; 1] false
      = Ok (Some c, Some loc, d) /\
    running_min
      (candidates line_distance no_haversine
         (mkLineString <$> omap id three_pieces) (pt 0 0) false [0; 1])
      = Some (c, loc, d) /\
    (c, loc, d) ∈ candidates line_distance no_haversine
                    (mkLineString <$> omap id three_pieces) (pt 0 0) false
                    [0; 1] /\
    forall c' loc' d',
      (c', loc', d') ∈ candidates line_distance no_haversine
                         (mkLineString <$> omap id three_pieces) (pt 0 0)
                         false [0; 1] ->
      (d <= d')%Q.
Proof.
  apply (find_closest_running_min line_distance no_haversine
           (mkLineString <$> omap id three_pieces) (pt 0 0) false [0; 1]).
  - discriminate.
  - intros o Ho.
    apply elem_of_cons in Ho as [->|Ho]; [discriminate|].
    apply elem_of_cons in Ho as [->|Ho]; [discriminate|].
    by apply elem_of_nil in Ho.
Defined.

(** The running minimum on that pool: the end of the left piece, at
    distance 0 from (0,0). *)
Example find_closest_three_pieces :
  find_closest line_distance no_haversine
    (mkLineString <$> omap id three_pieces) (pt 0 0) [0; 1] false
  = Ok (Some 1, Some LEnd, 0%Q).
Proof. vm_compute. reflexivity. Qed.

Lemma tolerance_boundary_witness :
  exists out s,
    join_em line_distance no_haversine coords_eq gap_of_one 1%Q false false
      = Some (Ok (out, s)) /\
    ((nearest_endpoints line_distance no_haversine false
        (pt 2 0) (pt 3 0) (pt 0 0) (pt 1 0) < 1)%Q ->
     src_segments s = [] /\
     (segments_in_order s = [1; 0] \/ segments_in_order s = [0; 1])) /\
    ((1 <= nearest_endpoints line_distance no_haversine false
        (pt 2 0) (pt 3 0) (pt 0 0) (pt 1 0))%Q ->
     src_segments s = [0] /\ segments_in_order s = [1]).
Proof.
  apply (tolerance_boundary line_distance no_haversine coords_eq
           [pt 2 0; pt 3 0] [pt 0 0; pt 1 0]
           (pt 2 0) (pt 3 0) (pt 0 0) (pt 1 0) 1%Q false false);
    reflexivity.
Defined.

(** At a distance equal to the tolerance the two pieces are not joined;
    with a larger tolerance they are. *)
Example gap_equal_to_tolerance :
  nearest_endpoints line_distance no_haversine false
    (pt 2 0) (pt 3 0) (pt 0 0) (pt 1 0) = 1%Q /\
  join_em line_distance no_haversine coords_eq gap_of_one 1%Q false false
  = Some (Ok ([[pt 0 0; pt 1 0]],
              mkState (mkLineString <$> omap id gap_of_one) [0] [1] 1)) /\
  join_em line_distance no_haversine coords_eq gap_of_one (11 # 10)%Q
    false false
  = Some (Ok ([[pt 0 0; pt 1 0]; [pt 2 0; pt 3 0]],
              mkState (mkLineString <$> omap id gap_of_one) [] [1; 0] 0)).
Proof. repeat split; vm_compute; reflexivity. Qed.

Lemma match_orientation_witness :
  let h := mkLineString <$> omap id three_pieces in
  let s := mkState h [0; 1] [2] 2 in
  exists s',
    loop_body line_distance no_haversine coords_eq default_tolerance false s
      = Ok (Continue s') /\
    segments_in_order s' = segments_in_order s ++ [0] /\
    coords (heap s' !!! 0) = coords (heap s !!! 0) /\
    forall o, o <> 0 -> heap s' !!! o = heap s !!! o.
Proof.
  intros h s.
  apply (proj1 (match_orientation line_distance no_haversine coords_eq
                  default_tolerance false s (pt 0 0) (pt 1 0)
                  ltac:(intros o Ho;
                        apply elem_of_cons in Ho as [->|Ho]; [simpl; lia|];
                        apply elem_of_cons in Ho as [->|Ho]; [simpl; lia|];
                        by apply elem_of_nil in Ho)
                  eq_refl eq_refl) 0 LStart 0%Q);
    reflexivity.
Defined.

Lemma assembly_terminates_witness :
  exists s0,
    seed (mkLineString <$> omap id three_pieces) [0; 1; 2] = Ok s0 /\
    (exists r,
       while_loop line_distance no_haversine coords_eq default_tolerance
         false (length (src_segments s0)) s0 = Some r /\
       forall s k, r = Ok (s, k) -> k <= 3) /\
    (forall combine,
       is_Some (join_em line_distance no_haversine coords_eq three_pieces
                  default_tolerance false combine)) /\
    (forall s s',
       loop_body line_distance no_haversine coords_eq default_tolerance
         false s = Ok (Continue s') ->
       S (length (src_segments s')) = length (src_segments s)) /\
    (forall s s',
       loop_body line_distance no_haversine coords_eq default_tolerance
         false s = Ok (Break s') -> s' = s).
Proof.
  apply (assembly_terminates line_distance no_haversine coords_eq
           three_pieces default_tolerance false
           (mkLineString <$> omap id three_pieces) [0; 1; 2]).
  - reflexivity.
  - discriminate.
Defined.

(** The loop on [three_pieces] runs two iterations: a join and a break. *)
Example while_loop_three_pieces :
  while_loop line_distance no_haversine coords_eq default_tolerance false 2
    (mkState (mkLineString <$> omap id three_pieces) [0; 1] [2] 2)
  = Some (Ok (mkState (mkLineString <$> omap id three_pieces) [1] [2; 0] 0,
              2)).
Proof. vm_compute. reflexivity. Qed.

Lemma chain_plus_pool_constant_witness :
  let h := mkLineString <$> omap id three_pieces in
  let s0 := mkState h [0; 1] [2] 2 in
  let body :=
    loop_body line_distance no_haversine coords_eq default_tolerance false in
  (length (segments_in_order s0) = 1 /\
   S (length (src_segments s0)) = 3) /\
  (forall s,
     reachable line_distance no_haversine coords_eq default_tolerance false
       s0 s ->
     length (segments_in_order s) + length (src_segments s) = 3) /\
  (forall fuel s k,
     while_loop line_distance no_haversine coords_eq default_tolerance false
       fuel s0 = Some (Ok (s, k)) ->
     length (segments_in_order s) + length (src_segments s) = 3) /\
  (forall s s', body s = Ok (Continue s') ->
     exists c, c ∈ src_segments s /\
       S (length (src_segments s')) = length (src_segments s) /\
       (segments_in_order s' = segments_in_order s ++ [c] \/
        segments_in_order s' = c :: segments_in_order s)) /\
  ((forall a b, coords_eq a b = true -> a = b) ->
   forall s s', body s = Ok (Continue s') ->
     exists c, src_segments s ≡ₚ c :: src_segments s' /\
               segments_in_order s' ≡ₚ c :: segments_in_order s).
Proof.
  intros h s0 body.
  apply (chain_plus_pool_constant line_distance no_haversine coords_eq
           three_pieces default_tolerance false h [0; 1; 2] s0);
    reflexivity.
Defined.

Lemma single_segment_identity_witness :
  exists s,
    join_em line_distance no_haversine coords_eq
      [None; Some [pt 0 0; pt 1 0; pt 2 0]] 0%Q false true
      = Some (Ok ([[pt 0 0; pt 1 0; pt 2 0]], s)) /\
    segments_in_order s = [0] /\
    coords (heap s !!! 0) = [pt 0 0; pt 1 0; pt 2 0] /\
    src_segments s = [].
Proof.
  apply (single_segment_identity line_distance no_haversine coords_eq
           [None; Some [pt 0 0; pt 1 0; pt 2 0]] [pt 0 0; pt 1 0; pt 2 0]
           0%Q false true).
  reflexivity.
Defined.

Lemma leftovers_unchanged_witness :
  let s := mkState (mkLineString <$> omap id three_pieces) [1] [2; 0] 0 in
  (forall o, o ∈ src_segments s ->
     exists p, omap id three_pieces !! o = Some p /\
               coords (heap s !!! o) = p) /\
  (forall h pool s0 s1,
     read_source three_pieces = (h, pool) -> seed h pool = Ok s0 ->
     reachable line_distance no_haversine coords_eq default_tolerance false
       s0 s1 ->
     forall o, o ∈ src_segments s1 -> heap s1 !!! o = h !!! o).
Proof.
  intros s.
  apply (leftovers_unchanged line_distance no_haversine coords_eq
           three_pieces default_tolerance false true
           [[pt 0 0; pt 1 0; pt 1 0; pt 2 0]] s coords_eq_sound).
  vm_compute. reflexivity.
Defined.

(** In combine mode a piece of three points and a piece of two that share
    a point give one polyline of five points: the shared point (2,0) is
    there twice. *)
Example combine_three_and_two :
  exists s,
    join_em line_distance no_haversine coords_eq three_and_two
      default_tolerance false true
    = Some (Ok ([[pt 0 0; pt 1 0; pt 2 0; pt 2 0; pt 3 0]], s)) /\
    segments_in_order s = [1; 0] /\
    length (all_coords (heap s) (segments_in_order s)) = 5.
Proof. eexists. repeat split; vm_compute; reflexivity. Qed.

(** ** The command line *)




(** ** The further properties at concrete inputs *)

Lemma line_distance_nonneg (p q : Point) : (0 <= line_distance p q)%Q.
Proof.
  unfold line_distance.
  pose proof (Qabs_nonneg (x p - x q)). pose proof (Qabs_nonneg (y p - y q)).
  lra.
Qed.

Lemma join_em_empty_source_witness :
  join_em line_distance no_haversine coords_eq [None; None]
    default_tolerance false true = Some (Raise IndexError).
Proof.
  apply (join_em_empty_source line_distance no_haversine coords_eq
           [None; None] default_tolerance false true).
  reflexivity.
Defined.

Lemma join_em_no_exception_witness :
  exists out s,
    join_em line_distance no_haversine coords_eq doubled_piece
      default_tolerance false false = Some (Ok (out, s)).
Proof.
  apply (join_em_no_exception line_distance no_haversine coords_eq
           doubled_piece default_tolerance false false).
  - discriminate.
  - repeat constructor; discriminate.
Defined.

Lemma combine_is_concat_of_separate_witness :
  let s := mkState (mkLineString <$> omap id three_and_two) [] [1; 0] 0 in
  let outs := [[pt 0 0; pt 1 0; pt 2 0]; [pt 2 0; pt 3 0]] in
  join_em line_distance no_haversine coords_eq three_and_two
    default_tolerance false true = Some (Ok ([concat outs], s)) /\
  length outs = length (segments_in_order s) /\
  forall i o, segments_in_order s !! i = Some o ->
              outs !! i = Some (coords (heap s !!! o)).
Proof.
  intros s outs.
  apply (combine_is_concat_of_separate line_distance no_haversine coords_eq
           three_and_two default_tolerance false outs s).
  vm_compute. reflexivity.
Defined.

Lemma leftovers_out_of_reach_witness :
  let s := mkState (mkLineString <$> omap id three_pieces) [1] [2; 0] 0 in
  exists start end_,
    head (coords (heap s !!! seg s)) = Some start /\
    last (coords (heap s !!! seg s)) = Some end_ /\
    forall o loc p,
      o ∈ src_segments s -> endpoint (heap s !!! o) loc = Some p ->
      (default_tolerance <= measure line_distance no_haversine false end_ p)%Q
      /\
      (default_tolerance
         <= measure line_distance no_haversine false start p)%Q.
Proof.
  intros s.
  apply (leftovers_out_of_reach line_distance no_haversine coords_eq
           three_pieces default_tolerance false false
           [[pt 0 0; pt 1 0]; [pt 1 0; pt 2 0]] s).
  - vm_compute. reflexivity.
  - discriminate.
Defined.

Lemma join_faces_seg_witness :
  let h := mkLineString <$> omap id doubled_piece in
  let s := mkState h [1] [0; 2] 0 in
  let s' := mkState (flip h 1) [] [0; 2; 1] 1 in
  (segments_in_order s' = segments_in_order s ++ [seg s'] /\
   exists end_ p,
     last (coords (heap s !!! seg s)) = Some end_ /\
     head (coords (heap s' !!! seg s')) = Some p /\
     (measure line_distance no_haversine false end_ p
        < default_tolerance)%Q) \/
  (segments_in_order s' = seg s' :: segments_in_order s /\
   exists start p,
     head (coords (heap s !!! seg s)) = Some start /\
     last (coords (heap s' !!! seg s')) = Some p /\
     (measure line_distance no_haversine false start p
        < default_tolerance)%Q).
Proof.
  intros h s s'.
  apply (join_faces_seg line_distance no_haversine coords_eq
           default_tolerance false s s').
  - intros o Ho. apply elem_of_cons in Ho as [->|Ho]; [simpl; lia|].
    by apply elem_of_nil in Ho.
  - vm_compute. reflexivity.
Defined.

Lemma find_closest_first_wins_witness :
  let h := mkLineString <$> omap id doubled_piece in
  exists c loc p p1 p2,
    Some 0 = Some c /\ Some LEnd = Some loc /\ [0; 1] = p1 ++ c :: p2 /\
    (c ∉ p1) /\
    endpoint (h !!! c) loc = Some p /\
    0%Q = measure line_distance no_haversine false (pt 0 0) p /\
    (forall o loc' p', o ∈ p1 -> endpoint (h !!! o) loc' = Some p' ->
       (0 < measure line_distance no_haversine false (pt 0 0) p')%Q) /\
    (loc = LEnd ->
     exists s, head (coords (h !!! c)) = Some s /\
               (0 < measure line_distance no_haversine false (pt 0 0) s)%Q).
Proof.
  intros h.
  apply (find_closest_first_wins line_distance no_haversine h (pt 0 0) false
           [0; 1] (Some 0) (Some LEnd) 0%Q).
  - discriminate.
  - vm_compute. reflexivity.
Defined.

Lemma find_closest_distance_order_independent_witness :
  let h := mkLineString <$> omap id three_pieces in
  exists r' l' d',
    find_closest line_distance no_haversine h (pt 0 0) [1; 0] false
      = Ok (r', l', d') /\ (0 == d')%Q.
Proof.
  intros h.
  apply (find_closest_distance_order_independent line_distance no_haversine
           h (pt 0 0) false [0; 1] [1; 0] (Some 1) (Some LEnd) 0%Q).
  - apply perm_swap.
  - vm_compute. reflexivity.
Defined.

Lemma one_query_point_at_chain_end_witness :
  let h := mkLineString <$> omap id three_pieces in
  let s := mkState h [1] [2; 0] 0 in
  (last (segments_in_order s) = Some (seg s) /\
   forall p, tail_query_point s = Ok p <-> chain_tail_point s = Some p) \/
  (head (segments_in_order s) = Some (seg s) /\
   forall p, head_query_point s = Ok p <-> chain_head_point s = Some p).
Proof.
  intros h s.
  apply (one_query_point_at_chain_end line_distance no_haversine coords_eq
           three_pieces default_tolerance false h [0; 1; 2]
           (mkState h [0; 1] [2] 2) s).
  - reflexivity.
  - reflexivity.
  - eapply reachable_step.
    + apply reachable_init.
    + discriminate.
    + vm_compute. reflexivity.
Defined.

Lemma nonpositive_tolerance_joins_nothing_witness :
  let s := mkState (mkLineString <$> omap id three_pieces) [0; 1] [2] 2 in
  segments_in_order s = [seg s] /\
  src_segments s ++ [seg s] = seq 0 (length (omap id three_pieces)) /\
  heap s = mkLineString <$> omap id three_pieces.
Proof.
  intros s.
  apply (nonpositive_tolerance_joins_nothing line_distance no_haversine
           coords_eq three_pieces 0%Q false true
           [[pt 0 0; pt 1 0]] s).
  - discriminate.
  - intros p q. apply line_distance_nonneg.
  - vm_compute. reflexivity.
Defined.

Lemma chain_polylines_from_source_witness :
  let s := mkState (flip (mkLineString <$> omap id doubled_piece) 1)
             [] [0; 2; 1] 1 in
  let out := [[pt (-1) 0; pt 0 0]; [pt 0 0; pt 1 0]; [pt 0 0; pt (-1) 0]] in
  (forall o, o ∈ segments_in_order s ->
     exists p, omap id doubled_piece !! o = Some p /\
               (coords (heap s !!! o) = p \/
                coords (heap s !!! o) = rev p)) /\
  (false = false ->
   forall rec, rec ∈ out ->
     exists p, p ∈ omap id doubled_piece /\ (rec = p \/ rec = rev p)).
Proof.
  intros s out.
  apply (chain_polylines_from_source line_distance no_haversine coords_eq
           coords_eq_sound doubled_piece default_tolerance false false
           out s).
  vm_compute. reflexivity.
Defined.

Lemma chain_and_leftovers_partition_witness :
  let s := mkState (mkLineString <$> omap id three_pieces) [1] [2; 0] 0 in
  segments_in_order s ++ src_segments s ≡ₚ
    seq 0 (length (omap id three_pieces)) /\
  NoDup (segments_in_order s ++ src_segments s).
Proof.
  intros s.
  apply (chain_and_leftovers_partition line_distance no_haversine coords_eq
           coords_eq_sound three_pieces default_tolerance false true
           [[pt 0 0; pt 1 0; pt 1 0; pt 2 0]] s).
  vm_compute. reflexivity.
Defined.

Lemma combined_output_preserves_points_witness :
  let s := mkState (flip (mkLineString <$> omap id doubled_piece) 1)
             [] [0; 2; 1] 1 in
  let out := [[pt (-1) 0; pt 0 0; pt 0 0; pt 1 0; pt 0 0; pt (-1) 0]] in
  exists rec,
    out = [rec] /\
    rec ++ concat ((fun o => coords (heap s !!! o)) <$> src_segments s)
      ≡ₚ concat (omap id doubled_piece) /\
    (src_segments s = [] -> rec ≡ₚ concat (omap id doubled_piece)).
Proof.
  intros s out.
  apply (combined_output_preserves_points line_distance no_haversine
           coords_eq coords_eq_sound doubled_piece default_tolerance false
           out s).
  vm_compute. reflexivity.
Defined.
